(** * Tooltip state machine of react-lit-tooltip (src/index.js)

    A shallow embedding of the module-level state machine, its timers, its
    subscription list, the per-instance event handlers and the placement
    function, followed by the properties of the specification.

    JavaScript objects that are mutated in place (the [context] object of the
    global [state]) live in an explicit object heap and are referred to by
    location, so that aliasing between [currentState.context] and
    [state.context] inside [transition] is the aliasing of the source. *)

From stdpp Require Import gmap strings list pretty.
From Stdlib Require Import ZArith.

(** ** Modes and events *)

(** [TooltipStates] (index.js, l. 31-37). *)
Inductive TooltipState :=
| IDLE | FOCUSED | VISIBLE | LEAVINGVISIBLE | DISMISSED.

(** [TooltipEvents] (index.js, l. 54-65). *)
Inductive TooltipEvent :=
| BLUR | FOCUS | GLOBALMOUSEMOVE | MOUSEDOWN | MOUSEENTER
| MOUSELEAVE | MOUSEMOVE | REST | SELECTWITHKEYBOARD | TIMECOMPLETE.

Global Instance TooltipState_eq_dec : EqDecision TooltipState.
Proof. solve_decision. Defined.
Global Instance TooltipEvent_eq_dec : EqDecision TooltipEvent.
Proof. solve_decision. Defined.

(** [StateContext]: an object with the single property [id]; [None] is
    JavaScript's [null]. *)
Record StateContext := { id : option string }.

(** [MachineEvent]: [type] plus the remaining properties.  Every event built
    in index.js has at most the property [id], and when present it is a string
    ([String(useId(idProp))]); [payload = None] is an event object without the
    key [id]. *)
Record MachineEvent := { type : TooltipEvent; payload : option string }.

Global Instance StateContext_eq_dec : EqDecision StateContext.
Proof. solve_decision. Defined.
Global Instance MachineEvent_eq_dec : EqDecision MachineEvent.
Proof. solve_decision. Defined.

(** Locations of context objects, listener identities and timer handles. *)
Definition loc := positive.
Definition Fn := nat.
Definition handle := nat.

(** [StateObject]: [{ value, context }]; [context] is a reference. *)
Record StateObject := { value : TooltipState; context : loc }.

Global Instance StateObject_eq_dec : EqDecision StateObject.
Proof. solve_decision. Defined.

(** ** The window's timers

    [window.setTimeout] and [window.clearTimeout] under a logical clock.  The
    two callbacks of index.js are [() => send({ type: REST })] and
    [() => send({ type: TIMECOMPLETE })], so a pending timeout is recorded by
    the event its callback sends. *)
Record Timer := { t_handle : handle; t_due : nat; t_callback : MachineEvent }.

Record Window := {
  pending : list Timer;            (* scheduled, not yet fired or cleared *)
  next_handle : handle;            (* handles are never reused *)
  now : nat;                       (* logical time, in ms *)
  fired : list (nat * MachineEvent) (* callbacks run so far, with their time *)
}.

Definition setTimeout (cb : MachineEvent) (delay : nat) (win : Window)
  : Window * handle :=
  ({| pending := pending win ++
                 [{| t_handle := next_handle win;
                     t_due := now win + delay;
                     t_callback := cb |}];
      next_handle := S (next_handle win);
      now := now win;
      fired := fired win |},
   next_handle win).

(** [clearTimeout(undefined)] and clearing a handle that is not pending do
    nothing. *)
Definition clearTimeout (h : option handle) (win : Window) : Window :=
  match h with
  | None => win
  | Some h =>
      {| pending := filter (λ t, t_handle t ≠ h) (pending win);
         next_handle := next_handle win;
         now := now win;
         fired := fired win |}
  end.

(** ** The module's state *)

(** Instrumentation only: the calls made by [send], in the order they
    happen.  Nothing in the model reads it. *)
Inductive Call :=
| CallLeave (s : TooltipState) (ctx : loc) (e : MachineEvent)
| Merge (src : loc) (e : MachineEvent) (dst : loc)
| CallEnter (s : TooltipState) (ctx : loc) (e : MachineEvent)
| Commit (s : StateObject)
| Notify (fn : Fn) (s : StateObject).

(** What a listener may do to the subscription list while it runs: call
    [subscribe(fn)], or call the clean-up function that an earlier
    [subscribe(fn)] returned.  The listeners that [useTooltip] registers do
    neither (they call [setIsVisible(isTooltipVisible(id))]). *)
Inductive BusAction :=
| DoSubscribe (fn : Fn)
| DoCleanup (fn : Fn).

Record World := {
  state : StateObject;                (* let state *)
  heap : gmap loc StateContext;       (* the context objects *)
  subscriptions : list Fn;            (* let subscriptions *)
  restTimeout : option handle;        (* let restTimeout *)
  leavingVisibleTimer : option handle;(* let leavingVisibleTimer *)
  window : Window;
  closures : Fn → list BusAction;     (* the code of each listener *)
  log : list Call
}.

Definition set_state (s : StateObject) (w : World) : World :=
  {| state := s; heap := heap w; subscriptions := subscriptions w;
     restTimeout := restTimeout w;
     leavingVisibleTimer := leavingVisibleTimer w;
     window := window w; closures := closures w; log := log w |}.

Definition set_heap (h : gmap loc StateContext) (w : World) : World :=
  {| state := state w; heap := h; subscriptions := subscriptions w;
     restTimeout := restTimeout w;
     leavingVisibleTimer := leavingVisibleTimer w;
     window := window w; closures := closures w; log := log w |}.

Definition set_subscriptions (l : list Fn) (w : World) : World :=
  {| state := state w; heap := heap w; subscriptions := l;
     restTimeout := restTimeout w;
     leavingVisibleTimer := leavingVisibleTimer w;
     window := window w; closures := closures w; log := log w |}.

Definition set_restTimeout (h : option handle) (w : World) : World :=
  {| state := state w; heap := heap w; subscriptions := subscriptions w;
     restTimeout := h;
     leavingVisibleTimer := leavingVisibleTimer w;
     window := window w; closures := closures w; log := log w |}.

Definition set_leavingVisibleTimer (h : option handle) (w : World) : World :=
  {| state := state w; heap := heap w; subscriptions := subscriptions w;
     restTimeout := restTimeout w;
     leavingVisibleTimer := h;
     window := window w; closures := closures w; log := log w |}.

Definition set_window (win : Window) (w : World) : World :=
  {| state := state w; heap := heap w; subscriptions := subscriptions w;
     restTimeout := restTimeout w;
     leavingVisibleTimer := leavingVisibleTimer w;
     window := win; closures := closures w; log := log w |}.

Definition record (c : Call) (w : World) : World :=
  {| state := state w; heap := heap w; subscriptions := subscriptions w;
     restTimeout := restTimeout w;
     leavingVisibleTimer := leavingVisibleTimer w;
     window := window w; closures := closures w; log := log w ++ [c] |}.

(** Reading the object at a reference; what a dangling reference would
    read is never used (see [wf]). *)
Definition read (w : World) (l : loc) : StateContext :=
  default {| id := None |} (heap w !! l).

(** [state.context.id]. *)
Definition activeId (w : World) : option string :=
  id (read w (context (state w))).

Definition chart_initial : TooltipState := IDLE.

(** The initial module state: [state = { value: chart.initial, context:
    { id: null } }], no subscription, both timer variables undefined. *)
Definition init : World :=
  {| state := {| value := chart_initial; context := 1%positive |};
     heap := {[ 1%positive := {| id := None |} ]};
     subscriptions := [];
     restTimeout := None;
     leavingVisibleTimer := None;
     window := {| pending := []; next_handle := 0; now := 0; fired := [] |};
     closures := λ _, [];
     log := [] |}.

(** ** Effects of the chart *)

(** [clearContextId]: [state.context.id = null], a write to the object that
    [state.context] refers to at the time of the call. *)
Definition clearContextId (w : World) : World :=
  set_heap (alter (λ _, {| id := None |}) (context (state w)) (heap w)) w.

Definition REST_TIMEOUT : nat := 100.
Definition LEAVE_TIMEOUT : nat := 500.

Definition startRestTimer (w : World) : World :=
  let win := clearTimeout (restTimeout w) (window w) in
  let '(win, h) :=
    setTimeout {| type := REST; payload := None |} REST_TIMEOUT win in
  set_restTimeout (Some h) (set_window win w).

Definition clearRestTimer (w : World) : World :=
  set_window (clearTimeout (restTimeout w) (window w)) w.

Definition startLeavingVisibleTimer (w : World) : World :=
  let win := clearTimeout (leavingVisibleTimer w) (window w) in
  let '(win, h) :=
    setTimeout {| type := TIMECOMPLETE; payload := None |} LEAVE_TIMEOUT win in
  set_leavingVisibleTimer (Some h) (set_window win w).

Definition clearLeavingVisibleTimer (w : World) : World :=
  set_window (clearTimeout (leavingVisibleTimer w) (window w)) w.

(** ** The chart *)

(** An [ActionFunction] receives a context reference and the event; none of
    the chart's actions uses either argument. *)
Definition ActionFunction := loc → MachineEvent → World → World.

Record StateDef := {
  enter : option ActionFunction;
  leave : option ActionFunction;
  on : TooltipEvent → option TooltipState
}.

Definition chart_states (s : TooltipState) : StateDef :=
  match s with
  | IDLE =>
      {| enter := Some (λ _ _, clearContextId);
         leave := None;
         on := λ e, match e with
                    | MOUSEENTER => Some FOCUSED
                    | FOCUS => Some VISIBLE
                    | _ => None
                    end |}
  | FOCUSED =>
      {| enter := Some (λ _ _, startRestTimer);
         leave := Some (λ _ _, clearRestTimer);
         on := λ e, match e with
                    | MOUSEMOVE => Some FOCUSED
                    | MOUSELEAVE => Some IDLE
                    | MOUSEDOWN => Some DISMISSED
                    | BLUR => Some IDLE
                    | REST => Some VISIBLE
                    | _ => None
                    end |}
  | VISIBLE =>
      {| enter := None;
         leave := None;
         on := λ e, match e with
                    | FOCUS => Some FOCUSED
                    | MOUSEENTER => Some FOCUSED
                    | MOUSELEAVE => Some LEAVINGVISIBLE
                    | BLUR => Some LEAVINGVISIBLE
                    | MOUSEDOWN => Some DISMISSED
                    | SELECTWITHKEYBOARD => Some DISMISSED
                    | GLOBALMOUSEMOVE => Some LEAVINGVISIBLE
                    | _ => None
                    end |}
  | LEAVINGVISIBLE =>
      {| enter := Some (λ _ _, startLeavingVisibleTimer);
         leave := Some (λ _ _ w, clearContextId (clearLeavingVisibleTimer w));
         on := λ e, match e with
                    | MOUSEENTER => Some VISIBLE
                    | FOCUS => Some VISIBLE
                    | TIMECOMPLETE => Some IDLE
                    | _ => None
                    end |}
  | DISMISSED =>
      {| enter := None;
         leave := Some (λ _ _, clearContextId);
         on := λ e, match e with
                    | MOUSELEAVE => Some IDLE
                    | BLUR => Some IDLE
                    | _ => None
                    end |}
  end.

(** ** Subscriptions *)

(** [subscriptions.push(fn)]; the returned clean-up function is [cleanup fn]
    below. *)
Definition subscribe (fn : Fn) (w : World) : World :=
  set_subscriptions (subscriptions w ++ [fn]) w.

(** [Array.prototype.indexOf]: the first index holding [fn], or [-1]. *)
Definition indexOf (l : list Fn) (fn : Fn) : Z :=
  match list_find (λ g, g = fn) l with
  | Some (i, _) => Z.of_nat i
  | None => (-1)%Z
  end.

(** [Array.prototype.splice(start, 1)] with its result dropped: a negative
    [start] counts from the end (clamped at 0), a [start] past the end is
    clamped to the length, and one element is removed when there is one at
    the resulting index. *)
Definition splice1 (l : list Fn) (start : Z) : list Fn :=
  let len := Z.of_nat (length l) in
  let from := if (start <? 0)%Z then Z.max (len + start) 0
              else Z.min start len in
  delete (Z.to_nat from) l.

(** The closure returned by [subscribe(fn)]. *)
Definition cleanup (fn : Fn) (w : World) : World :=
  set_subscriptions
    (splice1 (subscriptions w) (indexOf (subscriptions w) fn)) w.

Definition run_action (a : BusAction) (w : World) : World :=
  match a with
  | DoSubscribe fn => subscribe fn w
  | DoCleanup fn => cleanup fn w
  end.

(** [fn(state)]. *)
Definition call_listener (fn : Fn) (w : World) : World :=
  foldl (λ w a, run_action a w) (record (Notify fn (state w)) w)
        (closures w fn).

(** [Array.prototype.forEach]: the length is read once, the indices
    [k, k+1, ...] below it are visited in order, and at each index the
    callback runs on the element that the array holds at that moment, if it
    still has one.  [n] counts the indices left to visit. *)
Fixpoint forEach_from (n k : nat) (w : World) : World :=
  match n with
  | 0 => w
  | S n =>
      forEach_from n (S k)
        match subscriptions w !! k with
        | Some fn => call_listener fn w
        | None => w
        end
  end.

Definition notify (w : World) : World :=
  forEach_from (length (subscriptions w)) 0 w.

(** ** transition and send *)

(** [{ ...ctx, ...payload }]: the event's [id], when it has one, overrides
    the context's. *)
Definition merge (ctx : StateContext) (p : option string) : StateContext :=
  match p with
  | Some i => {| id := Some i |}
  | None => ctx
  end.

(** A new object holding [c]. *)
Definition alloc (c : StateContext) (w : World) : World * loc :=
  let l := fresh (dom (heap w)) in
  (set_heap (<[l := c]> (heap w)) w, l).

Definition run_effect (f : option ActionFunction) (mk : Call)
    (ctx : loc) (e : MachineEvent) (w : World) : World :=
  match f with
  | Some f => f ctx e (record mk w)
  | None => w
  end.

(** [transition(currentState, event)]; the result is
    [{ value, context, changed }]. *)
Definition transition (currentState : StateObject) (event : MachineEvent)
    (w : World) : World * (StateObject * bool) :=
  let stateDef := chart_states (value currentState) in
  match on stateDef (type event) with
  | None => (w, (currentState, false))
  | Some nextState =>
      let w :=
        run_effect (leave stateDef)
          (CallLeave (value currentState) (context currentState) event)
          (context currentState) event w in
      let src := context (state w) in
      let '(w, context') := alloc (merge (read w src) (payload event)) w in
      let w := record (Merge src event context') w in
      let nextStateValue := nextState in
      let nextDef := chart_states nextStateValue in
      let w :=
        run_effect (enter nextDef)
          (CallEnter nextStateValue (context currentState) event)
          (context currentState) event w in
      (w, ({| value := nextStateValue; context := context' |}, true))
  end.

Definition send (event : MachineEvent) (w : World) : World :=
  let '(w, (next, changed)) := transition (state w) event w in
  if changed : bool then
    notify (record (Commit next) (set_state next w))
  else w.

(** ** Per-instance view and handlers ([useTooltip]) *)

(** [state.context.id === id]. *)
Definition is_active (i : string) (w : World) : bool :=
  bool_decide (activeId w = Some i).

Definition isTooltipVisible (i : string) (initial : bool) (w : World) : bool :=
  is_active i w &&
  (if initial then bool_decide (value (state w) = VISIBLE)
   else bool_decide (value (state w) = VISIBLE)
        || bool_decide (value (state w) = LEAVINGVISIBLE)).

Definition handleMouseEnter (i : string) : World → World :=
  send {| type := MOUSEENTER; payload := Some i |}.

Definition handleMouseMove (i : string) : World → World :=
  send {| type := MOUSEMOVE; payload := Some i |}.

Definition handleMouseLeave (i : string) : World → World :=
  send {| type := MOUSELEAVE; payload := None |}.

Definition handleMouseDown (i : string) (w : World) : World :=
  if is_active i w then send {| type := MOUSEDOWN; payload := None |} w
  else w.

Definition handleFocus (i : string) : World → World :=
  send {| type := FOCUS; payload := Some i |}.

Definition handleBlur (i : string) (w : World) : World :=
  if is_active i w then send {| type := BLUR; payload := None |} w
  else w.

Definition handleKeyDown (i : string) (key : string) (w : World) : World :=
  if bool_decide (key = "Enter") || bool_decide (key = " ")
  then send {| type := SELECTWITHKEYBOARD; payload := None |} w
  else w.

(** The document-level [keydown] listener of an instance. *)
Definition listener (key : string) (w : World) : World :=
  if (bool_decide (key = "Escape") || bool_decide (key = "Esc"))
     && bool_decide (value (state w) = VISIBLE)
  then send {| type := SELECTWITHKEYBOARD; payload := None |} w
  else w.

(** The document-level [mousemove] listener that
    [useDisabledTriggerOnSafari] installs, for a pointer target outside every
    trigger flagged visible. *)
Definition handleGlobalMouseMove : World → World :=
  send {| type := GLOBALMOUSEMOVE; payload := None |}.

(** ** The environment

    What can happen to the module between two of its own steps: a DOM event
    reaches a handler of the instance with identifier [i], an instance mounts
    or unmounts its listener, time passes, or a timeout that is due runs its
    callback. *)
Inductive Input :=
| MouseEnterOn (i : string)
| MouseMoveOn (i : string)
| MouseLeaveOn (i : string)
| MouseDownOn (i : string)
| FocusOn (i : string)
| BlurOn (i : string)
| KeyDownOn (i : string) (key : string)
| DocumentKeyDown (key : string)
| DocumentMouseMove
| Mount (fn : Fn)
| Unmount (fn : Fn)
| Elapse (d : nat)
| TimerFires (h : handle).

Definition elapse (d : nat) (win : Window) : Window :=
  {| pending := pending win; next_handle := next_handle win;
     now := now win + d; fired := fired win |}.

(** The pending timeout with handle [h], if it is due. *)
Definition due_timer (h : handle) (win : Window) : option Timer :=
  match list_find (λ t, t_handle t = h) (pending win) with
  | Some (_, t) => if decide (t_due t ≤ now win) then Some t else None
  | None => None
  end.

(** The world in which the callback of the due timeout [t] runs: [t] has
    left the pending list. *)
Definition fired_world (h : handle) (t : Timer) (w : World) : World :=
  set_window
    {| pending := filter (λ t, t_handle t ≠ h) (pending (window w));
       next_handle := next_handle (window w);
       now := now (window w);
       fired := fired (window w) ++ [(now (window w), t_callback t)] |} w.

(** The window runs a due timeout: its callback, [send(t_callback)], runs. *)
Definition fire (h : handle) (w : World) : World :=
  match due_timer h (window w) with
  | Some t => send (t_callback t) (fired_world h t w)
  | None => w
  end.

Definition step (i : Input) (w : World) : World :=
  match i with
  | MouseEnterOn i => handleMouseEnter i w
  | MouseMoveOn i => handleMouseMove i w
  | MouseLeaveOn i => handleMouseLeave i w
  | MouseDownOn i => handleMouseDown i w
  | FocusOn i => handleFocus i w
  | BlurOn i => handleBlur i w
  | KeyDownOn i key => handleKeyDown i key w
  | DocumentKeyDown key => listener key w
  | DocumentMouseMove => handleGlobalMouseMove w
  | Mount fn => subscribe fn w
  | Unmount fn => cleanup fn w
  | Elapse d => set_window (elapse d (window w)) w
  | TimerFires h => fire h w
  end.

Definition run (ins : list Input) (w : World) : World :=
  foldl (λ w i, step i w) w ins.

Definition reachable (w : World) : Prop := ∃ ins, w = run ins init.

(** The global state refers to an allocated context object. *)
Definition wf (w : World) : Prop := is_Some (heap w !! context (state w)).

(** ** Placement *)

(** The fields of a [DOMRect] that [positionTooltip] reads. *)
Module DOMRect.
Record t (num : Type) := {
  width : num; height : num;
  top : num; right : num; bottom : num; left : num
}.
Arguments width {num}.
Arguments height {num}.
Arguments top {num}.
Arguments right {num}.
Arguments bottom {num}.
Arguments left {num}.
End DOMRect.

(** The style properties that [getStyles] and [positionTooltip] produce; an
    absent property is [None], so [{}] is [CSS.empty]. *)
Module CSS.
Record t := {
  left : option string; top : option string; visibility : option string
}.
Definition empty : t := {| left := None; top := None; visibility := None |}.
End CSS.

(** A style value: a string or a number ([zIndex: 1]). *)
Inductive CSSValue :=
| CSSString (s : string)
| CSSNumber (n : Z).

(** A style object ([React.CSSProperties]): a map from property names to
    values. *)
Abbreviation CSSProperties := (gmap string CSSValue).

(** The style object that [positionTooltip] returns, as a property map. *)
Definition CSS_props (c : CSS.t) : CSSProperties :=
  from_option (λ v, {[ "left" := CSSString v ]}) ∅ (CSS.left c)
  ∪ from_option (λ v, {[ "top" := CSSString v ]}) ∅ (CSS.top c)
  ∪ from_option (λ v, {[ "visibility" := CSSString v ]}) ∅
      (CSS.visibility c).

Section Placement.
(** JavaScript numbers with the three operations used; nothing is assumed
    of them, so the results hold for IEEE doubles, [NaN] (what a missing
    field of a [Partial<DOMRect>] turns into) included. *)
Context {num : Type}.
Variable add sub : num → num → num.
Variable lt : num → num → bool.
Variable lit : Z → num.              (* numeric literals *)
Variable toString : num → string.    (* the conversion in a template *)

(** [getDocumentDimensions()], [window.pageXOffset], [window.pageYOffset]. *)
Variable windowWidth windowHeight : num.
Variable pageXOffset pageYOffset : num.

Local Infix "+" := add.
Local Infix "-" := sub.
Local Infix "<" := lt.

Definition px (n : num) : string := (toString n ++ "px")%string.

Record Collisions := {
  c_top : bool; c_right : bool; c_bottom : bool; c_left : bool
}.

(** The [collisions] object of [positionTooltip]. *)
Definition collisions (triggerRect tooltipRect : DOMRect.t num)
    (offset : num) : Collisions :=
  {| c_top :=
       DOMRect.top triggerRect - DOMRect.height tooltipRect < lit 0;
     c_right :=
       windowWidth < DOMRect.left triggerRect + DOMRect.width tooltipRect;
     c_bottom :=
       windowHeight
       < DOMRect.bottom triggerRect + DOMRect.height tooltipRect + offset;
     c_left :=
       DOMRect.left triggerRect - DOMRect.width tooltipRect < lit 0 |}.

(** [positionTooltip(triggerRect, tooltipRect, offset = 8)]; an absent
    rectangle or offset is [None]. *)
Definition positionTooltip (triggerRect tooltipRect : option (DOMRect.t num))
    (offset : option num) : CSS.t :=
  let offset := default (lit 8) offset in
  match triggerRect, tooltipRect with
  | Some triggerRect, Some tooltipRect =>
      let collisions := collisions triggerRect tooltipRect offset in
      let directionRight := c_right collisions && negb (c_left collisions) in
      let directionUp := c_bottom collisions && negb (c_top collisions) in
      {| CSS.left :=
           Some (if directionRight
                 then px (DOMRect.right triggerRect
                          - DOMRect.width tooltipRect + pageXOffset)
                 else px (DOMRect.left triggerRect + pageXOffset));
         CSS.top :=
           Some (if directionUp
                 then px (DOMRect.top triggerRect - offset
                          - DOMRect.height tooltipRect + pageYOffset)
                 else px (DOMRect.top triggerRect + offset
                          + DOMRect.height triggerRect + pageYOffset));
         CSS.visibility := None |}
  | _, _ => CSS.empty
  end.

(** A [Position] is called with the two rectangles only and returns any
    style object. *)
Definition Position : Type :=
  option (DOMRect.t num) → option (DOMRect.t num) → CSSProperties.

Definition getStyles (position : Position)
    (triggerRect tooltipRect : option (DOMRect.t num)) : CSSProperties :=
  let haventMeasuredTooltipYet :=
    match tooltipRect with None => true | Some _ => false end in
  if haventMeasuredTooltipYet
  then {[ "visibility" := CSSString "hidden" ]}
  else position triggerRect tooltipRect.

(** The default of [TooltipContent]'s [position] prop: [positionTooltip]
    called with the two rectangles. *)
Definition default_position : Position :=
  λ triggerRect tooltipRect,
    CSS_props (positionTooltip triggerRect tooltipRect None).
End Placement.

(** ** Rendering ([useTooltip], [TooltipPopup], [TooltipContent]) *)

(** [{ ...a, ...b }]: the properties of [b] win. *)
Definition spread (a b : gmap string CSSValue) : gmap string CSSValue :=
  b ∪ a.

(** The literal part of the [style] prop of [Comp] in [TooltipContent]. *)
Definition base_style : gmap string CSSValue :=
  {[ "position" := CSSString "absolute";
     "pointerEvents" := CSSString "none";
     "zIndex" := CSSNumber 1;
     "whiteSpace" := CSSString "nowrap";
     "backgroundColor" := CSSString "white";
     "border" := CSSString "1px solid #ccc" ]}.

(** The [style] prop of [Comp]: the literal part, then the caller's [style]
    (absent is [None]), then [getStyles(position, triggerRect,
    tooltipRect)]. *)
Definition TooltipContent_style {num : Type} (position : Position)
    (style : option (gmap string CSSValue))
    (triggerRect tooltipRect : option (DOMRect.t num))
  : gmap string CSSValue :=
  spread (spread base_style (default ∅ style))
    (getStyles position triggerRect tooltipRect).

(** What is read of a rendered element: its [role], its [id] and its
    text. *)
Record Element := {
  el_role : option string;
  el_id : option string;
  el_text : string
}.

(** The elements [TooltipContent] renders: [Comp] with the label, and, when
    an [aria-label] was passed ([ariaLabel != null]), a [VisuallyHidden]
    with that text. *)
Definition TooltipContent_elements (ariaLabel : option string)
    (id label : string) : list Element :=
  let hasAriaLabel :=
    match ariaLabel with Some _ => true | None => false end in
  {| el_role := if hasAriaLabel then None else Some "tooltip";
     el_id := if hasAriaLabel then None else Some id;
     el_text := label |}
  :: match ariaLabel with
     | Some text =>
         [{| el_role := Some "tooltip"; el_id := Some id; el_text := text |}]
     | None => []
     end.

Section Trigger.
(** [makeId] of @react-lit/helper. *)
Variable makeId : string → string → string.

(** [TooltipPopup]: the content under the identifier
    [makeId('tooltip', String(id))] when visible, [null] otherwise. *)
Definition TooltipPopup (isVisible : bool) (ariaLabel : option string)
    (id label : string) : option (list Element) :=
  if isVisible
  then Some (TooltipContent_elements ariaLabel (makeId "tooltip" id) label)
  else None.

(** The [aria-describedby] and [data-state] props of the trigger. *)
Definition aria_describedby (isVisible : bool) (id : string)
  : option string :=
  if isVisible then Some (makeId "tooltip" id) else None.

Definition data_state (isVisible : bool) : string :=
  if isVisible then "tooltip-visible" else "tooltip-hidden".
End Trigger.

(** * Notions used in the statements *)

(** The fields other than [subscriptions] and [log]. *)
Definition core (w : World) :=
  (state w, heap w, restTimeout w, leavingVisibleTimer w, window w).

(** The world that [send] hands to [notify] when the event is mapped. *)
Definition committed (e : MachineEvent) (w : World) : World :=
  let '(w', (next, _)) := transition (state w) e w in
  record (Commit next) (set_state next w').

Definition target (e : MachineEvent) (w : World) : option TooltipState :=
  on (chart_states (value (state w))) (type e).

(** The world after the leave effect of the current mode, as [transition]
    runs it. *)
Definition after_leave (e : MachineEvent) (w : World) : World :=
  run_effect (leave (chart_states (value (state w))))
    (CallLeave (value (state w)) (context (state w)) e)
    (context (state w)) e w.

Definition REST_event : MachineEvent := {| type := REST; payload := None |}.
Definition TIMECOMPLETE_event : MachineEvent :=
  {| type := TIMECOMPLETE; payload := None |}.

(** A pending timeout belongs to the current mode: a rest timeout is pending
    only in FOCUSED and is the one [restTimeout] names, a leaving timeout only
    in LEAVING_VISIBLE and is the one [leavingVisibleTimer] names. *)
Definition timer_ok (w : World) (t : Timer) : Prop :=
  t_handle t < next_handle (window w)
  ∧ ((t_callback t = REST_event
      ∧ value (state w) = FOCUSED
      ∧ restTimeout w = Some (t_handle t))
     ∨ (t_callback t = TIMECOMPLETE_event
        ∧ value (state w) = LEAVINGVISIBLE
        ∧ leavingVisibleTimer w = Some (t_handle t))).

(** At most one timeout is pending, and it belongs to the current mode. *)
Definition timers_ok (w : World) : Prop :=
  match pending (window w) with
  | [] => True
  | [t] => timer_ok w t
  | _ => False
  end.

(** The timeout that entering mode [s] schedules in window [win]. *)
Definition scheduled (s : TooltipState) (win : Window) : list Timer :=
  match s with
  | FOCUSED =>
      [{| t_handle := next_handle win; t_due := now win + REST_TIMEOUT;
          t_callback := REST_event |}]
  | LEAVINGVISIBLE =>
      [{| t_handle := next_handle win; t_due := now win + LEAVE_TIMEOUT;
          t_callback := TIMECOMPLETE_event |}]
  | _ => []
  end.

(** No listener calls a clean-up function. *)
Definition only_subscribes (w : World) : Prop :=
  ∀ fn a, a ∈ closures w fn → ∃ g, a = DoSubscribe g.

(** No rest callback runs or is due before time [T]: the rest timeouts that
    are pending are due at [T] or later, one scheduled now would be, and those
    that ran after the first [n] entries of the window's record ran at [T] or
    later. *)
Definition rest_not_before (T n : nat) (w : World) : Prop :=
  n ≤ length (fired (window w))
  ∧ T ≤ now (window w) + REST_TIMEOUT
  ∧ (∀ t, t ∈ pending (window w) → t_callback t = REST_event → T ≤ t_due t)
  ∧ (∀ tm ev, (tm, ev) ∈ drop n (fired (window w)) → type ev = REST → T ≤ tm).

(** Inputs in which no DOM event reaches a handler: time passes or a
    timeout is offered to run. *)
Definition passive (i : Input) : Prop :=
  match i with
  | Elapse _ | TimerFires _ => True
  | _ => False
  end.

(** Mode and [context.id] agree. *)
Definition same_global_state (w1 w2 : World) : Prop :=
  value (state w1) = value (state w2) ∧ activeId w1 = activeId w2.

(** The deliveries of a notification pass started in [w]. *)
Definition notified (w : World) : list Call :=
  drop (length (log w)) (log (notify w)).

(** Two listeners, the first of which calls its own clean-up function when
    it is notified. *)
Definition self_removing : World :=
  {| state := state init; heap := heap init;
     subscriptions := [0; 1];
     restTimeout := None; leavingVisibleTimer := None;
     window := window init;
     closures := λ fn, match fn with 0 => [DoCleanup 0] | _ => [] end;
     log := [] |}.

(** An event that opens a session names its instance: the handlers send
    MOUSE_ENTER and FOCUS with the instance's [id]. *)
Definition carries_id (e : MachineEvent) : Prop :=
  type e = MOUSEENTER ∨ type e = FOCUS → is_Some (payload e).

(** Outside IDLE some instance is the active one. *)
Definition owned (w : World) : Prop :=
  value (state w) ≠ IDLE → is_Some (activeId w).

(** The pending timeouts are exactly those of the current mode: one rest
    timeout in FOCUSED, one leaving timeout in LEAVING_VISIBLE, each named by
    its variable and due no later than a full delay from now; none in the
    other modes. *)
Definition timers_exact (w : World) : Prop :=
  match value (state w) with
  | FOCUSED =>
      ∃ h d, pending (window w)
             = [{| t_handle := h; t_due := d; t_callback := REST_event |}]
             ∧ restTimeout w = Some h
             ∧ d ≤ now (window w) + REST_TIMEOUT
  | LEAVINGVISIBLE =>
      ∃ h d, pending (window w)
             = [{| t_handle := h; t_due := d;
                   t_callback := TIMECOMPLETE_event |}]
             ∧ leavingVisibleTimer w = Some h
             ∧ d ≤ now (window w) + LEAVE_TIMEOUT
  | _ => pending (window w) = []
  end.

(** No instance is visible. *)
Definition nothing_visible (w : World) : Prop :=
  ∀ j, isTooltipVisible j false w = false.

(** Placement over integer pixel coordinates, where the arithmetic is
    exact. *)
Definition place (windowWidth windowHeight pageXOffset pageYOffset : Z)
  : option (DOMRect.t Z) → option (DOMRect.t Z) → option Z → CSS.t :=
  positionTooltip Z.add Z.sub Z.ltb (λ z, z) pretty
    windowWidth windowHeight pageXOffset pageYOffset.

(** The popup, put at the trigger's left edge, passes the right edge of the
    viewport. *)
Definition overflows_right (windowWidth : Z)
    (triggerRect tooltipRect : DOMRect.t Z) : Prop :=
  (windowWidth < DOMRect.left triggerRect + DOMRect.width tooltipRect)%Z.

(** The popup, put below the trigger at distance [offset], passes the bottom
    edge of the viewport. *)
Definition overflows_bottom (windowHeight : Z)
    (triggerRect tooltipRect : DOMRect.t Z) (offset : Z) : Prop :=
  (windowHeight
   < DOMRect.bottom triggerRect + DOMRect.height tooltipRect + offset)%Z.

(** The popup, flipped to end at the trigger's right edge, passes the left
    edge of the viewport. *)
Definition flipped_overflows_left
    (triggerRect tooltipRect : DOMRect.t Z) : Prop :=
  (DOMRect.right triggerRect - DOMRect.width tooltipRect < 0)%Z.

(** An effect of the chart, when the mode has one, called with a context
    reference and the event. *)
Definition apply_effect (f : option ActionFunction) (ctx : loc)
    (e : MachineEvent) (w : World) : World :=
  match f with
  | Some f => f ctx e w
  | None => w
  end.

(** The index at which [splice(start, 1)] takes its element out of [l],
    when [l] has one there. *)
Definition splice_from (l : list Fn) (start : Z) : nat :=
  let len := Z.of_nat (length l) in
  Z.to_nat (if (start <? 0)%Z then Z.max (len + start) 0
            else Z.min start len).

(** What an action does to the subscription list. *)
Definition act (a : BusAction) (l : list Fn) : list Fn :=
  match a with
  | DoSubscribe fn => l ++ [fn]
  | DoCleanup fn => splice1 l (indexOf l fn)
  end.

(** An action that takes nothing out of [l] at index [k] or before it: a
    subscription, or a clean-up whose [splice] works behind [k]. *)
Definition behind (k : nat) (l : list Fn) (a : BusAction) : Prop :=
  match a with
  | DoSubscribe _ => True
  | DoCleanup fn => k < splice_from l (indexOf l fn)
  end.

(** Each of the actions, run in turn from the list [l], is behind [k]. *)
Fixpoint actions_behind (k : nat) (acts : list BusAction) (l : list Fn)
  : Prop :=
  match acts with
  | [] => True
  | a :: acts => behind k l a ∧ actions_behind k acts (act a l)
  end.

(** During the [n] steps of a pass from index [k], every listener that is
    called only takes out entries behind its own. *)
Fixpoint removals_behind (n k : nat) (w : World) : Prop :=
  match n with
  | 0 => True
  | S n =>
      match subscriptions w !! k with
      | Some fn =>
          actions_behind k (closures w fn) (subscriptions w)
          ∧ removals_behind n (S k) (call_listener fn w)
      | None => True
      end
  end.

(** No listener subscribes anything. *)
Definition only_cleans (w : World) : Prop :=
  ∀ fn a, a ∈ closures w fn → ∃ g, a = DoCleanup g.

(** * Properties *)

(** ** Frame lemmas: what the notification pass leaves alone *)

Section Frames.
Implicit Types (w : World) (fn : Fn) (e : MachineEvent).

Lemma run_action_core a w : core (run_action a w) = core w.
Proof. by destruct a. Qed.

Lemma run_action_closures a w : closures (run_action a w) = closures w.
Proof. by destruct a. Qed.

Lemma foldl_actions_core l w :
  core (foldl (λ w a, run_action a w) w l) = core w.
Proof.
  revert w. induction l as [|a l IH]; intros w; simpl; [done|].
  by rewrite IH, run_action_core.
Qed.

Lemma foldl_actions_closures l w :
  closures (foldl (λ w a, run_action a w) w l) = closures w.
Proof.
  revert w. induction l as [|a l IH]; intros w; simpl; [done|].
  by rewrite IH, run_action_closures.
Qed.

Lemma call_listener_core fn w : core (call_listener fn w) = core w.
Proof. unfold call_listener. by rewrite foldl_actions_core. Qed.

Lemma call_listener_closures fn w :
  closures (call_listener fn w) = closures w.
Proof. unfold call_listener. by rewrite foldl_actions_closures. Qed.

Lemma forEach_from_core n k w : core (forEach_from n k w) = core w.
Proof.
  revert k w. induction n as [|n IH]; intros k w; simpl; [done|].
  rewrite IH. destruct (subscriptions w !! k); [|done].
  apply call_listener_core.
Qed.

Lemma notify_core w : core (notify w) = core w.
Proof. apply forEach_from_core. Qed.

Lemma notify_state w : state (notify w) = state w.
Proof. by injection (notify_core w). Qed.
Lemma notify_heap w : heap (notify w) = heap w.
Proof. by injection (notify_core w). Qed.
Lemma notify_window w : window (notify w) = window w.
Proof. by injection (notify_core w). Qed.
Lemma notify_restTimeout w : restTimeout (notify w) = restTimeout w.
Proof. by injection (notify_core w). Qed.
Lemma notify_leavingVisibleTimer w :
  leavingVisibleTimer (notify w) = leavingVisibleTimer w.
Proof. by injection (notify_core w). Qed.

Lemma notify_activeId w : activeId (notify w) = activeId w.
Proof. unfold activeId, read. by rewrite notify_state, notify_heap. Qed.
End Frames.

(** ** [send] without its notification pass *)

Lemma send_unmapped e w : target e w = None → send e w = w.
Proof.
  unfold target, send, transition. by intros ->.
Qed.

Lemma send_mapped e w next :
  target e w = Some next → send e w = notify (committed e w).
Proof.
  unfold target, send, committed, transition. intros ->.
  by destruct (alloc _ _).
Qed.

(** Case analysis on the current mode and the event type, keeping the
    mapped cases. *)
Ltac chart_cases w e :=
  let v := fresh "v" in
  let c := fresh "c" in
  let ty := fresh "ty" in
  let p := fresh "p" in
  destruct w as [[v c] ? ? ? ? ? ? ?]; destruct e as [ty p];
  unfold target, committed, after_leave, transition in *;
  destruct v, ty; simpl in *; simplify_eq; try done.

Lemma fresh_ne_allocated (h : gmap loc StateContext) (l : loc) :
  is_Some (h !! l) → l ≠ fresh (dom h).
Proof.
  intros Hl ->. by apply (is_fresh (dom h)), elem_of_dom.
Qed.

Section Committed.
Variables (e : MachineEvent) (w : World) (next : TooltipState).
Hypothesis Hmapped : target e w = Some next.

Lemma committed_state :
  state (committed e w)
  = {| value := next; context := fresh (dom (heap w)) |}.
Proof using Hmapped.
  chart_cases w e; by rewrite ?dom_alter_L.
Qed.

Lemma committed_fields :
  subscriptions (committed e w) = subscriptions w
  ∧ closures (committed e w) = closures w.
Proof using Hmapped. by chart_cases w e. Qed.

Hypothesis Hwf : wf w.

(** The committed context object holds the merge of the context as the
    leave effect left it with the payload: the enter effect, which runs
    after the copy was taken, writes to the old object only. *)
Lemma committed_context :
  heap (committed e w) !! fresh (dom (heap w))
  = Some (merge (read (after_leave e w) (context (state w))) (payload e)).
Proof using Hmapped Hwf.
  pose proof (fresh_ne_allocated _ _ Hwf) as Hne. revert Hne.
  chart_cases w e; intros Hne;
    rewrite ?dom_alter_L, ?lookup_alter_ne by done;
    by rewrite lookup_insert_eq.
Qed.

Lemma committed_activeId :
  activeId (committed e w)
  = id (merge (read (after_leave e w) (context (state w))) (payload e)).
Proof using Hmapped Hwf.
  unfold activeId at 1, read at 1.
  rewrite committed_state; simpl. by rewrite committed_context.
Qed.

Lemma committed_wf : wf (committed e w).
Proof using Hmapped Hwf.
  unfold wf. rewrite committed_state; simpl.
  rewrite committed_context. eauto.
Qed.
End Committed.

(** What the leave effect does to the active identifier: the leave effects
    of LEAVING_VISIBLE and DISMISSED clear it, the others keep it. *)
Lemma after_leave_id e w :
  wf w →
  id (read (after_leave e w) (context (state w)))
  = match value (state w) with
    | LEAVINGVISIBLE | DISMISSED => None
    | _ => activeId w
    end.
Proof.
  unfold wf, activeId, read. intros [x Hx]. revert Hx.
  destruct w as [[v c] ? ? ? ? ? ? ?]; unfold after_leave;
    destruct v; simpl; intros Hx; try done;
    by rewrite lookup_alter_eq, Hx.
Qed.

Lemma send_wf e w : wf w → wf (send e w).
Proof.
  intros Hwf. destruct (target e w) as [next|] eqn:Ht.
  - rewrite (send_mapped _ _ _ Ht). unfold wf.
    rewrite notify_state, notify_heap. by eapply committed_wf.
  - by rewrite send_unmapped.
Qed.

(** ** Timers *)

Lemma committed_window e w next :
  timers_ok w → target e w = Some next →
  window (committed e w)
  = {| pending := scheduled next (window w);
       next_handle := length (scheduled next (window w))
                      + next_handle (window w);
       now := now (window w);
       fired := fired (window w) |}
  ∧ restTimeout (committed e w)
    = (if decide (next = FOCUSED) then Some (next_handle (window w))
       else restTimeout w)
  ∧ leavingVisibleTimer (committed e w)
    = (if decide (next = LEAVINGVISIBLE) then Some (next_handle (window w))
       else leavingVisibleTimer w).
Proof.
  unfold timers_ok, timer_ok.
  destruct w as [[v c] hp subs rt lt [pd nh nw fd] cl lg];
    destruct e as [ty p].
  unfold target, committed, transition; simpl.
  intros Hok Ht.
  destruct pd as [|t [|t' pd]]; [| |done].
  - destruct v, ty; simplify_eq/=; try done;
      destruct rt, lt; done.
  - destruct Hok as [Hlt [(Hcb & -> & ->)|(Hcb & -> & ->)]];
      destruct ty; simplify_eq/=;
      unfold startRestTimer, startLeavingVisibleTimer, clearRestTimer,
        clearLeavingVisibleTimer, clearTimeout, setTimeout; simpl;
      rewrite ?filter_cons, ?filter_nil; simpl;
      repeat (case_decide; simplify_eq/=; try done).
Qed.

Lemma notify_timers_ok w : timers_ok w → timers_ok (notify w).
Proof.
  unfold timers_ok, timer_ok.
  by rewrite notify_window, notify_state, notify_restTimeout,
    notify_leavingVisibleTimer.
Qed.

Lemma committed_timers_ok e w next :
  timers_ok w → target e w = Some next → timers_ok (committed e w).
Proof.
  intros Hok Ht.
  destruct (committed_window e w next Hok Ht) as (Hwin & Hrt & Hlt).
  unfold timers_ok, timer_ok.
  rewrite Hwin, Hrt, Hlt, (committed_state e w next Ht); simpl.
  destruct next; simpl; try done; split; try lia; eauto.
Qed.

Lemma send_timers_ok e w : timers_ok w → timers_ok (send e w).
Proof.
  intros Hok. destruct (target e w) as [next|] eqn:Ht.
  - rewrite (send_mapped _ _ _ Ht).
    by eapply notify_timers_ok, committed_timers_ok.
  - by rewrite send_unmapped.
Qed.

(** A due timeout found by handle is the only pending one. *)
Lemma due_timer_Some h w t :
  timers_ok w → due_timer h (window w) = Some t →
  pending (window w) = [t] ∧ t_handle t = h ∧ t_due t ≤ now (window w).
Proof.
  unfold timers_ok, due_timer. intros Hok Hdue.
  destruct (list_find _ _) as [[i t']|] eqn:Hfind; [|done].
  case_decide; simplify_eq.
  apply list_find_Some in Hfind as (Hi & Hh & _).
  destruct (pending (window w)) as [|t0 [|t1 l]]; [done| |done].
  destruct i; simplify_eq/=. done.
Qed.

Lemma fire_Some h w t :
  due_timer h (window w) = Some t → fire h w = send (t_callback t) (fired_world h t w).
Proof. unfold fire. by intros ->. Qed.

Lemma fire_None h w : due_timer h (window w) = None → fire h w = w.
Proof. unfold fire. by intros ->. Qed.

Lemma fired_world_pending h w t :
  timers_ok w → due_timer h (window w) = Some t →
  pending (window (fired_world h t w)) = [].
Proof.
  intros Hok Hdue. destruct (due_timer_Some _ _ _ Hok Hdue) as (Hp & Hh & _).
  simpl. rewrite Hp, filter_cons, filter_nil. by rewrite decide_False by tauto.
Qed.

Lemma step_wf i w : wf w → wf (step i w).
Proof.
  intros Hwf. destruct i; simpl; try done;
    unfold handleMouseEnter, handleMouseMove, handleMouseLeave,
      handleMouseDown, handleFocus, handleBlur, handleKeyDown, listener,
      handleGlobalMouseMove, fire;
    repeat case_match; try done; by apply send_wf.
Qed.

Lemma step_timers_ok i w : timers_ok w → timers_ok (step i w).
Proof.
  intros Hok. destruct i; simpl; try done;
    unfold handleMouseEnter, handleMouseMove, handleMouseLeave,
      handleMouseDown, handleFocus, handleBlur, handleKeyDown, listener,
      handleGlobalMouseMove;
    repeat case_match; try done; try by apply send_timers_ok.
  destruct (due_timer h (window w)) as [t|] eqn:Hdue.
  - rewrite (fire_Some _ _ _ Hdue). apply send_timers_ok.
    unfold timers_ok. by rewrite (fired_world_pending _ _ _ Hok Hdue).
  - by rewrite fire_None.
Qed.

(** Induction over the worlds that [run] goes through. *)
Lemma run_invariant (P : World → Prop) w :
  P w → (∀ i w, P w → P (step i w)) → ∀ ins, P (run ins w).
Proof.
  intros H0 Hstep ins. revert w H0.
  induction ins as [|i ins IH]; intros w H0; simpl; [done|].
  apply IH, Hstep, H0.
Qed.

Lemma run_wf ins w : wf w → wf (run ins w).
Proof. intros. apply run_invariant; [done|apply step_wf]. Qed.

Lemma run_timers_ok ins w : timers_ok w → timers_ok (run ins w).
Proof. intros. apply run_invariant; [done|apply step_timers_ok]. Qed.

Lemma init_wf : wf init.
Proof. unfold wf; simpl. by rewrite lookup_singleton_eq. Qed.

Lemma init_timers_ok : timers_ok init.
Proof. done. Qed.

Lemma reachable_wf w : reachable w → wf w.
Proof. intros [ins ->]. apply run_wf, init_wf. Qed.

Lemma reachable_timers_ok w : reachable w → timers_ok w.
Proof. intros [ins ->]. apply run_timers_ok, init_timers_ok. Qed.

(** ** The notification pass *)

Lemma foldl_actions_log l w :
  log (foldl (λ w a, run_action a w) w l) = log w.
Proof.
  revert w. induction l as [|a l IH]; intros w; simpl; [done|].
  rewrite IH. by destruct a.
Qed.

Lemma call_listener_log fn w :
  log (call_listener fn w) = log w ++ [Notify fn (state w)].
Proof. unfold call_listener. by rewrite foldl_actions_log. Qed.

Lemma call_listener_state fn w : state (call_listener fn w) = state w.
Proof. by injection (call_listener_core fn w). Qed.

(** Whatever the listeners do to the subscription list, a pass only adds
    deliveries of the current state to the log. *)
Lemma forEach_from_log n k w :
  ∃ notes,
    log (forEach_from n k w) = log w ++ notes
    ∧ Forall (λ c, ∃ fn, c = Notify fn (state w)) notes.
Proof.
  revert k w. induction n as [|n IH]; intros k w; simpl.
  - exists []. by rewrite app_nil_r.
  - destruct (subscriptions w !! k) as [fn|]; [|apply IH].
    destruct (IH (S k) (call_listener fn w)) as (notes & Hlog & Hall).
    exists (Notify fn (state w) :: notes).
    rewrite Hlog, call_listener_log, <- app_assoc. split; [done|].
    rewrite call_listener_state in Hall. constructor; eauto.
Qed.

Lemma foldl_subscribes_prefix l w (subs : list Fn) :
  (∀ a, a ∈ l → ∃ g, a = DoSubscribe g) →
  subs `prefix_of` subscriptions w →
  subs `prefix_of` subscriptions (foldl (λ w a, run_action a w) w l).
Proof.
  revert w. induction l as [|a l IH]; intros w Hl Hpre; simpl; [done|].
  apply IH; [intros; apply Hl; by right|].
  destruct (Hl a) as [g ->]; [by left|]. simpl.
  by apply prefix_app_r.
Qed.

Lemma call_listener_prefix fn w (subs : list Fn) :
  only_subscribes w →
  subs `prefix_of` subscriptions w →
  subs `prefix_of` subscriptions (call_listener fn w).
Proof.
  intros Hcl Hpre. unfold call_listener.
  apply foldl_subscribes_prefix; [|done]. intros a Ha. by apply (Hcl fn).
Qed.

Lemma forEach_from_appending n k w (subs : list Fn) :
  only_subscribes w →
  subs `prefix_of` subscriptions w →
  k + n = length subs →
  log (forEach_from n k w)
  = log w ++ ((λ fn, Notify fn (state w)) <$> drop k subs).
Proof.
  revert k w. induction n as [|n IH]; intros k w Hcl Hpre Hlen; simpl.
  - rewrite drop_ge by lia. by rewrite app_nil_r.
  - destruct (lookup_lt_is_Some_2 subs k) as [fn Hfn]; [lia|].
    rewrite (prefix_lookup_Some _ _ _ _ Hfn Hpre).
    rewrite (drop_S _ _ _ Hfn); simpl.
    rewrite IH.
    + by rewrite call_listener_log, call_listener_state, <- app_assoc.
    + unfold only_subscribes. by rewrite call_listener_closures.
    + by apply call_listener_prefix.
    + lia.
Qed.

Lemma notify_appending w :
  only_subscribes w →
  log (notify w)
  = log w ++ ((λ fn, Notify fn (state w)) <$> subscriptions w).
Proof.
  intros Hcl. unfold notify.
  by rewrite (forEach_from_appending _ 0 w (subscriptions w)).
Qed.

Lemma committed_log e w next :
  target e w = Some next →
  log (committed e w)
  = log w
    ++ match leave (chart_states (value (state w))) with
       | Some _ => [CallLeave (value (state w)) (context (state w)) e]
       | None => []
       end
    ++ [Merge (context (state w)) e (fresh (dom (heap w)))]
    ++ match enter (chart_states next) with
       | Some _ => [CallEnter next (context (state w)) e]
       | None => []
       end
    ++ [Commit {| value := next; context := fresh (dom (heap w)) |}].
Proof.
  intros Ht.
  chart_cases w e; by rewrite ?dom_alter_L, <- ?app_assoc.
Qed.

(** ** The state machine core *)

Lemma send_state e w next :
  target e w = Some next →
  state (send e w) = {| value := next; context := fresh (dom (heap w)) |}.
Proof.
  intros Ht. rewrite (send_mapped _ _ _ Ht), notify_state.
  by apply committed_state.
Qed.

Lemma send_activeId e w next :
  wf w → target e w = Some next →
  activeId (send e w)
  = id (merge (read (after_leave e w) (context (state w))) (payload e)).
Proof.
  intros Hwf Ht. rewrite (send_mapped _ _ _ Ht), notify_activeId.
  by eapply committed_activeId.
Qed.

(** C1.  The claim that [context.id] is null whenever the mode is IDLE fails
    on the code: hovering instance "A" and leaving it again ends in IDLE with
    [context.id] still "A".  The enter effect of IDLE did run, but it wrote
    null into the context object of the state being left (the object at
    location 2), after [transition] had copied it into the object that is
    committed. *)
Theorem C1_idle_keeps_stale_id :
  let w := run [MouseEnterOn "A"; MouseLeaveOn "A"] init in
  value (state w) = IDLE
  ∧ activeId w = Some "A"
  ∧ CallEnter IDLE 2%positive {| type := MOUSELEAVE; payload := None |}
    ∈ log w
  ∧ read w 2%positive = {| id := None |}
  ∧ context (state w) ≠ 2%positive.
Proof.
  intros w. repeat split; try by vm_compute.
  apply list_elem_of_lookup. by exists 5.
Qed.

(** The mutable part of the world after a mapped [send] is that of the
    chart's leave effect, the copy, the chart's enter effect and the commit,
    applied in this order. *)
Lemma send_core_composition e w next :
  target e w = Some next →
  let old := context (state w) in
  let w1 := apply_effect (leave (chart_states (value (state w)))) old e w in
  let merged := merge (read w1 (context (state w1))) (payload e) in
  let w2 := (alloc merged w1).1 in
  let new := (alloc merged w1).2 in
  let w3 := apply_effect (enter (chart_states next)) old e w2 in
  core (send e w) = core (set_state {| value := next; context := new |} w3).
Proof.
  intros Ht. simpl. rewrite (send_mapped _ _ _ Ht), notify_core.
  unfold apply_effect, alloc, core.
  by chart_cases w e.
Qed.

Lemma read_after_leave e w :
  wf w →
  read (after_leave e w) (context (state w))
  = {| id := match value (state w) with
             | LEAVINGVISIBLE | DISMISSED => None
             | _ => activeId w
             end |}.
Proof.
  intros Hwf. rewrite <- (after_leave_id e w Hwf).
  by destruct (read _ _).
Qed.

(** The old context object after a mapped [send]: cleared by the leave
    effects of LEAVING_VISIBLE and DISMISSED and by the enter effect of
    IDLE, untouched otherwise. *)
Lemma send_old_context e w next :
  wf w → target e w = Some next →
  heap (send e w) !! context (state w)
  = Some {| id := match value (state w), next with
                  | LEAVINGVISIBLE, _ | DISMISSED, _ | _, IDLE => None
                  | _, _ => activeId w
                  end |}.
Proof.
  intros Hwf Ht. rewrite (send_mapped _ _ _ Ht), notify_heap.
  pose proof (fresh_ne_allocated _ _ Hwf) as Hne.
  unfold wf in Hwf. destruct Hwf as [[x] Hx]. unfold activeId, read.
  revert Hne Hx.
  chart_cases w e; intros Hne Hx;
    rewrite ?dom_alter_L;
    rewrite ?lookup_alter_eq, ?lookup_insert_ne, ?lookup_alter_eq by done;
    by rewrite Hx.
Qed.

(** C2.  For a mapped event, [send] runs the leave effect of the current mode
    on the old context object, then copies that object merged with the
    payload into a new object, then runs the enter effect of the target mode,
    again on the old object, then commits the target mode with the new
    object, and only then notifies.  The order shows in the result: the
    committed object holds the merge of the context as the leave effect left
    it (cleared after LEAVING_VISIBLE and DISMISSED), the enter effect of
    IDLE has cleared the old object and not the committed one, and the
    timeout that the enter effect schedules is pending after the leave effect
    cancelled the earlier one. *)
Theorem C2_send_order (e : MachineEvent) (w : World) (next : TooltipState) :
  wf w →
  target e w = Some next →
  let old := context (state w) in
  let new := fresh (dom (heap w)) in
  let left_id :=
    match value (state w) with
    | LEAVINGVISIBLE | DISMISSED => None
    | _ => activeId w
    end in
  let merged := merge {| id := left_id |} (payload e) in
  let s' := {| value := next; context := new |} in
  let w1 := apply_effect (leave (chart_states (value (state w)))) old e w in
  let copy := merge (read w1 (context (state w1))) (payload e) in
  let w3 :=
    apply_effect (enter (chart_states next)) old e (alloc copy w1).1 in
  new ≠ old
  ∧ state (send e w) = s'
  ∧ heap (send e w) !! new = Some merged
  ∧ heap (send e w) !! old
    = Some {| id := match next with IDLE => None | _ => left_id end |}
  ∧ core (send e w)
    = core (set_state {| value := next; context := (alloc copy w1).2 |} w3)
  ∧ (timers_ok w → pending (window (send e w)) = scheduled next (window w))
  ∧ ∃ notes,
      log (send e w)
      = log w
        ++ match leave (chart_states (value (state w))) with
           | Some _ => [CallLeave (value (state w)) old e]
           | None => []
           end
        ++ [Merge old e new]
        ++ match enter (chart_states next) with
           | Some _ => [CallEnter next old e]
           | None => []
           end
        ++ [Commit s']
        ++ notes
      ∧ Forall (λ c, ∃ fn, c = Notify fn s') notes.
Proof.
  intros Hwf Ht old new left_id merged s' w1 copy w3.
  subst old new left_id merged s' w1 copy w3.
  split; [by apply not_eq_sym, fresh_ne_allocated|].
  split; [by apply send_state|].
  split.
  { rewrite (send_mapped _ _ _ Ht), notify_heap.
    rewrite (committed_context _ _ next) by done.
    by rewrite read_after_leave. }
  split.
  { rewrite (send_old_context _ _ _ Hwf Ht).
    by destruct (value (state w)), next. }
  split; [by apply send_core_composition|].
  split.
  { intros Hok. rewrite (send_mapped _ _ _ Ht), notify_window.
    by destruct (committed_window e w next Hok Ht) as (-> & _). }
  destruct (forEach_from_log (length (subscriptions (committed e w))) 0
              (committed e w)) as (notes & Hlog & Hall).
  exists notes. rewrite (send_mapped _ _ _ Ht).
  unfold notify. rewrite Hlog, (committed_log _ _ _ Ht).
  rewrite (committed_state _ _ _ Ht) in Hall.
  split; [|done]. by rewrite <- !app_assoc.
Qed.

Lemma C2_send_order_witness :
  let e := {| type := MOUSELEAVE; payload := None |} in
  let w := run [MouseEnterOn "A"] init in
  wf w
  ∧ target e w = Some IDLE
  ∧ state (send e w) = {| value := IDLE; context := 3%positive |}
  ∧ heap (send e w) !! 3%positive = Some {| id := Some "A" |}
  ∧ heap (send e w) !! 2%positive = Some {| id := None |}
  ∧ pending (window (send e w)) = [].
Proof.
  intros e w.
  assert (Hwf : wf w) by (by eexists).
  destruct (C2_send_order e w IDLE Hwf eq_refl)
    as (_ & Hs & Hh & Hold & _ & Hp & _).
  split; [exact Hwf|]. split; [reflexivity|].
  split; [exact Hs|]. split; [exact Hh|]. split; [exact Hold|].
  apply Hp. exact (run_timers_ok [MouseEnterOn "A"] init init_timers_ok).
Defined.

(** C4.  An event that the row of the current mode does not map is ignored:
    [transition] reports [changed = false] with the state it was given, and
    [send] returns the world as it was, so no effect ran, nothing was
    committed and no listener was called. *)
Theorem C4_unmapped_event_ignored (e : MachineEvent) (w : World) :
  target e w = None →
  transition (state w) e w = (w, (state w, false))
  ∧ send e w = w.
Proof.
  intros Ht. split; [|by apply send_unmapped].
  unfold target in Ht. unfold transition. by rewrite Ht.
Qed.

Lemma C4_unmapped_event_ignored_witness :
  let e := {| type := MOUSEMOVE; payload := Some "A" |} in
  let w := run [Mount 0; FocusOn "A"] init in
  value (state w) = VISIBLE ∧ target e w = None ∧ send e w = w.
Proof.
  intros e w. split; [reflexivity|]. split; [reflexivity|].
  exact (proj2 (C4_unmapped_event_ignored e w eq_refl)).
Defined.

Lemma send_window_rescue ty B w :
  value (state w) = LEAVINGVISIBLE →
  ty = MOUSEENTER ∨ ty = FOCUS →
  core (committed {| type := ty; payload := Some B |} w)
  = ({| value := VISIBLE; context := fresh (dom (heap w)) |},
     heap (committed {| type := ty; payload := Some B |} w),
     restTimeout w, leavingVisibleTimer w,
     clearTimeout (leavingVisibleTimer w) (window w)).
Proof.
  destruct w as [[v c] ? ? ? ? ? ? ?]; simpl. intros -> [-> | ->];
    unfold core, committed, transition; simpl; by rewrite dom_alter_L.
Qed.

(** C3.  In LEAVING_VISIBLE, MOUSE_ENTER or FOCUS carrying the identifier [B]
    leads directly to VISIBLE with [context.id = B]: instance [B] is visible
    at once.  The leaving timeout is cancelled and no timeout is scheduled:
    the window is the old one with the handle in [leavingVisibleTimer]
    cleared, and in every reachable world nothing is left pending. *)
Theorem C3_rescue_is_immediate (w : World) (ty : TooltipEvent) (B : string) :
  wf w →
  value (state w) = LEAVINGVISIBLE →
  ty = MOUSEENTER ∨ ty = FOCUS →
  let w' := send {| type := ty; payload := Some B |} w in
  value (state w') = VISIBLE
  ∧ activeId w' = Some B
  ∧ isTooltipVisible B false w' = true
  ∧ window w' = clearTimeout (leavingVisibleTimer w) (window w)
  ∧ restTimeout w' = restTimeout w
  ∧ leavingVisibleTimer w' = leavingVisibleTimer w
  ∧ (reachable w → pending (window w') = []).
Proof.
  intros Hwf Hv Hty w'.
  assert (Ht : target {| type := ty; payload := Some B |} w = Some VISIBLE).
  { unfold target. rewrite Hv. by destruct Hty as [-> | ->]. }
  assert (Hval : value (state w') = VISIBLE).
  { unfold w'. by rewrite (send_state _ _ _ Ht). }
  assert (Hid : activeId w' = Some B).
  { unfold w'. by rewrite (send_activeId _ _ _ Hwf Ht). }
  pose proof (send_window_rescue ty B w Hv Hty) as Hcore.
  rewrite <- notify_core, <- (send_mapped _ _ _ Ht) in Hcore.
  fold w' in Hcore. injection Hcore as _ _ Hrt Hlt Hwin.
  repeat split; try done.
  - unfold isTooltipVisible, is_active. rewrite Hid, Hval.
    by rewrite bool_decide_eq_true_2.
  - intros Hreach. pose proof (reachable_timers_ok _ Hreach) as Hok.
    assert (Hok' : timers_ok w') by by apply send_timers_ok.
    unfold timers_ok, timer_ok in Hok'. rewrite Hval in Hok'.
    destruct (pending (window w')) as [|t [|t' l]]; [done| |done].
    by destruct Hok' as [_ [(_ & ? & _)|(_ & ? & _)]].
Qed.

Lemma C3_rescue_is_immediate_witness :
  let w := run [FocusOn "A"; BlurOn "A"] init in
  let w' := send {| type := MOUSEENTER; payload := Some "B" |} w in
  wf w
  ∧ value (state w) = LEAVINGVISIBLE
  ∧ value (state w') = VISIBLE
  ∧ activeId w' = Some "B"
  ∧ pending (window w') = [].
Proof.
  intros w w'.
  assert (Hwf : wf w) by (by eexists).
  destruct (C3_rescue_is_immediate w MOUSEENTER "B" Hwf eq_refl
              (or_introl eq_refl)) as (Hv & Hid & _ & _ & _ & _ & Hp).
  split; [exact Hwf|]. split; [reflexivity|].
  split; [exact Hv|]. split; [exact Hid|].
  apply Hp. by exists [FocusOn "A"; BlurOn "A"].
Defined.

(** C10.  A mapped event without an [id] leaves [context.id] as the leave
    effect of the exited mode left it: null when that mode is LEAVING_VISIBLE
    or DISMISSED, whose leave effects clear it, and the identifier from before
    the transition otherwise.  So VISIBLE to LEAVING_VISIBLE on MOUSE_LEAVE,
    BLUR or GLOBAL_MOUSE_MOVE keeps the identifier, and the instance that was
    visible stays visible while time passes in LEAVING_VISIBLE. *)
Theorem C10_event_without_id_keeps_activeId
    (e : MachineEvent) (w : World) (next : TooltipState) :
  wf w →
  payload e = None →
  target e w = Some next →
  activeId (send e w)
  = match value (state w) with
    | LEAVINGVISIBLE | DISMISSED => None
    | _ => activeId w
    end
  ∧ (value (state w) = VISIBLE →
     type e = MOUSELEAVE ∨ type e = BLUR ∨ type e = GLOBALMOUSEMOVE →
     value (state (send e w)) = LEAVINGVISIBLE
     ∧ activeId (send e w) = activeId w
     ∧ ∀ A ds,
         isTooltipVisible A false w = true →
         isTooltipVisible A false (run (Elapse <$> ds) (send e w)) = true).
Proof.
  intros Hwf Hp Ht.
  assert (Hid : activeId (send e w)
                = match value (state w) with
                  | LEAVINGVISIBLE | DISMISSED => None
                  | _ => activeId w
                  end).
  { rewrite (send_activeId _ _ _ Hwf Ht), Hp. simpl.
    by apply after_leave_id. }
  split; [done|]. intros Hv Hty.
  assert (Hnext : next = LEAVINGVISIBLE).
  { unfold target in Ht. rewrite Hv in Ht.
    destruct Hty as [Hty|[Hty|Hty]]; rewrite Hty in Ht; by simplify_eq/=. }
  subst next. rewrite Hv in Hid.
  assert (Hval : value (state (send e w)) = LEAVINGVISIBLE).
  { by rewrite (send_state _ _ _ Ht). }
  repeat split; try done.
  intros A ds HA.
  assert (Hrun : ∀ w0, state (run (Elapse <$> ds) w0) = state w0
                       ∧ heap (run (Elapse <$> ds) w0) = heap w0).
  { induction ds as [|d ds IH]; intros w0; [done|].
    change (run (Elapse <$> d :: ds) w0)
      with (run (Elapse <$> ds) (step (Elapse d) w0)).
    by destruct (IH (step (Elapse d) w0)) as [-> ->]. }
  destruct (Hrun (send e w)) as [Hs Hh].
  assert (HidR : activeId (run (Elapse <$> ds) (send e w))
                 = activeId (send e w)).
  { unfold activeId, read. by rewrite Hs, Hh. }
  unfold isTooltipVisible, is_active in *.
  rewrite HidR, Hs, Hid, Hval.
  apply andb_true_iff in HA as [HA _]. by rewrite HA.
Qed.

Lemma C10_event_without_id_keeps_activeId_witness :
  let e := {| type := MOUSELEAVE; payload := None |} in
  let w := run [FocusOn "A"] init in
  wf w
  ∧ payload e = None
  ∧ target e w = Some LEAVINGVISIBLE
  ∧ activeId (send e w) = Some "A".
Proof.
  intros e w.
  assert (Hwf : wf w) by (by eexists).
  split; [exact Hwf|]. split; [reflexivity|]. split; [reflexivity|].
  exact (proj1 (C10_event_without_id_keeps_activeId e w LEAVINGVISIBLE
                  Hwf eq_refl eq_refl)).
Defined.

(** ** The instance binding layer *)

(** C5 as stated fails: MOUSE_LEAVE is sent whatever instance the pointer
    leaves.  With "B" hovered until visible and "A" then focused until
    visible, the pointer leaving "B", which is not the active instance, takes
    the machine from VISIBLE to LEAVING_VISIBLE. *)
Lemma C5_mouse_leave_counterexample :
  ¬ (∀ (ins : list Input) (i : string),
       let w := run ins init in
       activeId w ≠ Some i →
       same_global_state (handleMouseLeave i w) w
       ∧ same_global_state (handleBlur i w) w).
Proof.
  intros H.
  destruct (H [MouseEnterOn "B"; Elapse 100; TimerFires 0;
               FocusOn "A"; Elapse 100; TimerFires 1] "B")
    as [[Hv _] _]; [by vm_compute|].
  by vm_compute in Hv.
Qed.

(** C5, amended.  On an instance that is not the active one, a blur changes
    nothing at all, while a mouse leave is forwarded as it is on any instance
    and leaves the global state unchanged exactly when the current mode does
    not map MOUSE_LEAVE, that is in IDLE and in LEAVING_VISIBLE. *)
Theorem C5_blur_guarded_mouse_leave_forwarded (ins : list Input) (i : string) :
  let w := run ins init in
  activeId w ≠ Some i →
  handleBlur i w = w
  ∧ handleMouseLeave i w = send {| type := MOUSELEAVE; payload := None |} w
  ∧ (same_global_state (handleMouseLeave i w) w
     ↔ value (state w) = IDLE ∨ value (state w) = LEAVINGVISIBLE).
Proof.
  intros w Hne. split; [|split; [done|]].
  - unfold handleBlur, is_active. by rewrite bool_decide_eq_false_2.
  - unfold handleMouseLeave, same_global_state. split.
    + intros [Hv _]. revert Hv.
      destruct (value (state w)) eqn:Hval; eauto;
        erewrite send_state by (unfold target; by rewrite Hval); done.
    + intros Hval. rewrite send_unmapped; [done|].
      unfold target. by destruct Hval as [-> | ->].
Qed.

Lemma C5_blur_guarded_mouse_leave_forwarded_witness :
  let w := run [FocusOn "A"] init in
  activeId w ≠ Some "B"
  ∧ handleBlur "B" w = w
  ∧ ¬ same_global_state (handleMouseLeave "B" w) w.
Proof.
  intros w.
  assert (Hne : activeId w ≠ Some "B") by (by vm_compute).
  destruct (C5_blur_guarded_mouse_leave_forwarded [FocusOn "A"] "B" Hne)
    as (Hblur & _ & Hleave).
  split; [exact Hne|]. split; [exact Hblur|].
  intros Hsame. apply Hleave in Hsame. by destruct Hsame.
Defined.

(** ** The rest timer *)

Lemma send_window e w :
  timers_ok w →
  window (send e w) = window w
  ∨ ∃ next, target e w = Some next
      ∧ window (send e w)
        = {| pending := scheduled next (window w);
             next_handle := length (scheduled next (window w))
                            + next_handle (window w);
             now := now (window w);
             fired := fired (window w) |}.
Proof.
  intros Hok. destruct (target e w) as [next|] eqn:Ht.
  - right. exists next. split; [done|].
    rewrite (send_mapped _ _ _ Ht), notify_window.
    by destruct (committed_window e w next Hok Ht) as (-> & _).
  - left. by rewrite send_unmapped.
Qed.

Lemma send_rest_not_before T n e w :
  timers_ok w → rest_not_before T n w → rest_not_before T n (send e w).
Proof.
  intros Hok (Hn & Hnow & Hpend & Hfired). unfold rest_not_before.
  destruct (send_window e w Hok) as [-> | (next & _ & ->)]; [done|].
  repeat split; simpl; try done.
  intros t Ht Hcb. destruct next; simpl in Ht;
    try (by apply not_elem_of_nil in Ht);
    apply list_elem_of_singleton in Ht; subst t; simpl in *; [lia|done].
Qed.

Lemma step_rest_not_before T n i w :
  timers_ok w → rest_not_before T n w → rest_not_before T n (step i w).
Proof.
  intros Hok HJ. destruct i; simpl; try done;
    unfold handleMouseEnter, handleMouseMove, handleMouseLeave,
      handleMouseDown, handleFocus, handleBlur, handleKeyDown, listener,
      handleGlobalMouseMove;
    repeat case_match; try done; try by apply send_rest_not_before.
  - destruct HJ as (Hn & Hnow & Hpend & Hfired).
    repeat split; simpl; try done; lia.
  - destruct (due_timer h (window w)) as [t|] eqn:Hdue;
      [|by rewrite fire_None].
    rewrite (fire_Some _ _ _ Hdue).
    pose proof (fired_world_pending _ _ _ Hok Hdue) as Hnil.
    destruct (due_timer_Some _ _ _ Hok Hdue) as (Hp & _ & Hle).
    apply send_rest_not_before; [unfold timers_ok; by rewrite Hnil|].
    destruct HJ as (Hn & Hnow & Hpend & Hfired).
    split; [simpl; rewrite length_app; lia|].
    split; [done|]. split; [rewrite Hnil; by intros ? ?%not_elem_of_nil|].
    intros tm ev. simpl. rewrite drop_app_le by done.
    intros [Hin|Hin%list_elem_of_singleton]%elem_of_app Hty;
      [by eapply Hfired|].
    simplify_eq. etrans; [|exact Hle]. apply Hpend; [rewrite Hp; by left|].
    unfold timers_ok, timer_ok in Hok. rewrite Hp in Hok.
    destruct Hok as [_ [(? & _)|(Hcb & _)]]; [done|].
    rewrite Hcb in Hty. done.
Qed.

Lemma run_rest_not_before T n ins w :
  timers_ok w → rest_not_before T n w → rest_not_before T n (run ins w).
Proof.
  revert w. induction ins as [|i ins IH]; intros w Hok HJ; [done|].
  apply IH; [by apply step_timers_ok|by apply step_rest_not_before].
Qed.

Lemma send_now e w :
  timers_ok w → now (window (send e w)) = now (window w).
Proof.
  intros Hok. by destruct (send_window e w Hok) as [-> | (next & _ & ->)].
Qed.

Lemma step_now i w :
  timers_ok w → now (window w) ≤ now (window (step i w)).
Proof.
  intros Hok. destruct i; simpl; try done;
    unfold handleMouseEnter, handleMouseMove, handleMouseLeave,
      handleMouseDown, handleFocus, handleBlur, handleKeyDown, listener,
      handleGlobalMouseMove;
    repeat case_match; try done; try by rewrite send_now.
  - lia.
  - destruct (due_timer h (window w)) as [t|] eqn:Hdue;
      [|by rewrite fire_None].
    rewrite (fire_Some _ _ _ Hdue), send_now; [done|].
    unfold timers_ok. by rewrite (fired_world_pending _ _ _ Hok Hdue).
Qed.

Lemma run_now ins w :
  timers_ok w → now (window w) ≤ now (window (run ins w)).
Proof.
  revert w. induction ins as [|i ins IH]; intros w Hok; [done|].
  etrans; [by apply (step_now i)|]. by apply IH, step_timers_ok.
Qed.

(** While no DOM event arrives and the only pending timeout is not yet due,
    the state stays as it is. *)
Lemma passive_run_keeps_state later w t :
  timers_ok w →
  pending (window w) = [t] →
  Forall passive later →
  now (window (run later w)) < t_due t →
  state (run later w) = state w.
Proof.
  revert w. induction later as [|i later IH]; intros w Hok Hp Hall Hnow;
    [done|].
  apply Forall_cons in Hall as [Hi Hall].
  change (run (i :: later) w) with (run later (step i w)) in *.
  pose proof (step_timers_ok i w Hok) as Hok'.
  pose proof (run_now later _ Hok') as Hmono.
  destruct i; try done; simpl in *.
  - by rewrite IH.
  - destruct (due_timer h (window w)) as [t'|] eqn:Hdue.
    + destruct (due_timer_Some _ _ _ Hok Hdue) as (Hp' & _ & Hle).
      pose proof (step_now (TimerFires h) w Hok) as Hstep. simpl in Hstep.
      rewrite Hp in Hp'. simplify_eq. lia.
    + rewrite fire_None in * by done. by apply IH.
Qed.

Lemma timers_ok_at_most_one w :
  timers_ok w →
  length (filter (λ t, t_callback t = REST_event) (pending (window w))) ≤ 1.
Proof.
  unfold timers_ok. intros Hok.
  destruct (pending (window w)) as [|t [|t' l]]; [simpl; lia| |done].
  rewrite filter_cons, filter_nil. case_decide; simpl; lia.
Qed.

(** C6.  In FOCUSED, a MOUSE_MOVE keeps the mode and replaces the pending
    rest timeout by a fresh one due a full rest delay from now; whatever
    happens next, at most one rest timeout is pending, and no rest callback
    runs before that delay has passed (a timeout runs only once it is due
    under the window's clock).  In particular, while no DOM event arrives
    the mode is still FOCUSED, not VISIBLE, as long as the clock is short of
    that delay. *)
Theorem C6_mouse_move_restarts_rest_timer
    (ins later : list Input) (i : string) :
  let w := run ins init in
  value (state w) = FOCUSED →
  let w' := handleMouseMove i w in
  let fresh_timer :=
    {| t_handle := next_handle (window w);
       t_due := now (window w) + REST_TIMEOUT;
       t_callback := REST_event |} in
  value (state w') = FOCUSED
  ∧ pending (window w') = [fresh_timer]
  ∧ restTimeout w' = Some (next_handle (window w))
  ∧ (∀ t, t ∈ pending (window w) → t ∉ pending (window w'))
  ∧ length (filter (λ t, t_callback t = REST_event)
              (pending (window (run later w')))) ≤ 1
  ∧ (∀ tm ev,
       (tm, ev) ∈ drop (length (fired (window w')))
                    (fired (window (run later w'))) →
       type ev = REST →
       now (window w) + REST_TIMEOUT ≤ tm)
  ∧ (Forall passive later →
     now (window (run later w')) < now (window w) + REST_TIMEOUT →
     value (state (run later w')) = FOCUSED).
Proof.
  intros w Hv w' fresh_timer.
  assert (Hok : timers_ok w) by apply run_timers_ok, init_timers_ok.
  assert (Ht : target {| type := MOUSEMOVE; payload := Some i |} w
               = Some FOCUSED).
  { unfold target. by rewrite Hv. }
  assert (Hok' : timers_ok w') by by apply send_timers_ok.
  destruct (committed_window _ _ _ Hok Ht) as (Hwin & Hrt & _).
  rewrite <- notify_window, <- (send_mapped _ _ _ Ht) in Hwin.
  rewrite <- notify_restTimeout, <- (send_mapped _ _ _ Ht) in Hrt.
  fold (handleMouseMove i) in Hwin, Hrt. fold w' in Hwin, Hrt.
  split; [unfold w', handleMouseMove; by rewrite (send_state _ _ _ Ht)|].
  split; [by rewrite Hwin|]. split; [done|].
  split.
  { intros t Hin. rewrite Hwin. simpl. intros ->%list_elem_of_singleton.
    unfold timers_ok, timer_ok in Hok.
    destruct (pending (window w)) as [|t [|t' l]]; [|simpl in *|done].
    - by apply not_elem_of_nil in Hin.
    - apply list_elem_of_singleton in Hin. subst t. simpl in Hok. lia. }
  split; [by apply timers_ok_at_most_one, run_timers_ok|].
  assert (HJ : rest_not_before (now (window w) + REST_TIMEOUT)
                 (length (fired (window w'))) w').
  { repeat split; try done.
    - rewrite Hwin; simpl; lia.
    - rewrite Hwin; simpl. by intros t ->%list_elem_of_singleton.
    - rewrite drop_all. by intros ? ? ?%not_elem_of_nil. }
  split;
    [by destruct (run_rest_not_before _ _ later w' Hok' HJ)
       as (_ & _ & _ & ?)|].
  intros Hpassive Hnow.
  rewrite (passive_run_keeps_state later w' fresh_timer); try done.
  - unfold w', handleMouseMove. by rewrite (send_state _ _ _ Ht).
  - by rewrite Hwin.
Qed.

Lemma C6_mouse_move_restarts_rest_timer_witness :
  let w := run [MouseEnterOn "A"; Elapse 60] init in
  let w' := handleMouseMove "A" w in
  value (state w) = FOCUSED
  ∧ value (state w') = FOCUSED
  ∧ pending (window w')
    = [{| t_handle := 1; t_due := 160; t_callback := REST_event |}]
  ∧ value (state (run [Elapse 60; TimerFires 0; TimerFires 1] w')) = FOCUSED
  ∧ value (state (run [Elapse 100; TimerFires 1] w')) = VISIBLE.
Proof.
  intros w w'.
  destruct (C6_mouse_move_restarts_rest_timer
              [MouseEnterOn "A"; Elapse 60] [] "A" eq_refl)
    as (Hv & Hp & _).
  split; [reflexivity|]. split; [exact Hv|]. split; [exact Hp|].
  split; reflexivity.
Defined.

(** ** The subscription list *)

(** C7 as stated fails: [forEach] walks the live array by index, so when the
    listener at index 0 removes itself the listener registered after it moves
    to index 0 and is never called in that pass. *)
Lemma C7_removal_skips_counterexample :
  ¬ (∀ (w : World) (fn : Fn),
       fn ∈ subscriptions w → Notify fn (state w) ∈ notified w).
Proof.
  intros H. specialize (H self_removing 1).
  assert (Hn : notified self_removing = [Notify 0 (state init)])
    by reflexivity.
  rewrite Hn in H.
  assert (Hin : 1 ∈ subscriptions self_removing) by (right; left).
  apply H, list_elem_of_singleton in Hin. discriminate Hin.
Qed.

Lemma take_delete_behind (l : list Fn) (k j : nat) :
  k < j → take (S k) (delete j l) = take (S k) l.
Proof.
  revert k j. induction l as [|x l IH]; intros k j Hlt; [done|].
  destruct j as [|j]; [lia|]. simpl. f_equal.
  destruct k as [|k]; [by rewrite !take_0|]. apply IH. lia.
Qed.

Lemma act_behind_prefix (a : BusAction) (l : list Fn) (k : nat) :
  behind k l a → k < length l → take (S k) (act a l) = take (S k) l.
Proof.
  intros Hb Hk. destruct a as [g|g]; simpl in *.
  - by rewrite take_app_le by lia.
  - by apply take_delete_behind.
Qed.

Lemma run_actions_subscriptions (acts : list BusAction) (w : World) :
  subscriptions (foldl (λ w a, run_action a w) w acts)
  = foldl (λ l a, act a l) (subscriptions w) acts.
Proof.
  revert w. induction acts as [|a acts IH]; intros w; simpl; [done|].
  rewrite IH. by destruct a.
Qed.

Lemma actions_behind_prefix (acts : list BusAction) (l : list Fn) (k : nat) :
  actions_behind k acts l → k < length l →
  take (S k) (foldl (λ l a, act a l) l acts) = take (S k) l.
Proof.
  revert l. induction acts as [|a acts IH]; intros l Hb Hk; simpl; [done|].
  destruct Hb as [Ha Hb].
  pose proof (act_behind_prefix a l k Ha Hk) as Hpre.
  rewrite IH; [done|done|].
  apply (f_equal length) in Hpre. rewrite !length_take in Hpre. lia.
Qed.

Lemma call_listener_behind (fn : Fn) (w : World) (k : nat) :
  subscriptions w !! k = Some fn →
  actions_behind k (closures w fn) (subscriptions w) →
  take (S k) (subscriptions (call_listener fn w))
  = take (S k) (subscriptions w).
Proof.
  intros Hk Hb. unfold call_listener. rewrite run_actions_subscriptions.
  apply actions_behind_prefix; [done|]. by eapply lookup_lt_Some.
Qed.

Lemma forEach_from_past_end n k w :
  length (subscriptions w) ≤ k → forEach_from n k w = w.
Proof.
  revert k. induction n as [|n IH]; intros k Hk; simpl; [done|].
  rewrite (lookup_ge_None_2 _ _ Hk). apply IH. lia.
Qed.

(** A pass in which removals stay behind the running index calls, at each
    index, the listener that the list holds there when the pass is over. *)
Lemma forEach_from_behind n k w :
  removals_behind n k w →
  log (forEach_from n k w)
  = log w ++ ((λ fn, Notify fn (state w))
              <$> take n (drop k (subscriptions (forEach_from n k w))))
  ∧ take k (subscriptions (forEach_from n k w)) = take k (subscriptions w).
Proof.
  revert k w. induction n as [|n IH]; intros k w Hb; simpl.
  - by rewrite app_nil_r.
  - simpl in Hb. destruct (subscriptions w !! k) as [fn|] eqn:Hk.
    + destruct Hb as [Hact Hrest].
      destruct (IH _ _ Hrest) as [Hlog Htake].
      set (w' := forEach_from n (S k) (call_listener fn w)) in *.
      rewrite (call_listener_behind _ _ _ Hk Hact) in Htake.
      assert (Hk' : subscriptions w' !! k = Some fn).
      { rewrite <- (lookup_take_lt _ (S k)) by lia.
        rewrite Htake, lookup_take_lt by lia. done. }
      split.
      * rewrite Hlog, call_listener_log, call_listener_state.
        rewrite (drop_S _ _ _ Hk'). simpl. by rewrite <- app_assoc.
      * assert (Ht : ∀ l : list Fn, take k l = take k (take (S k) l)).
        { intros l. rewrite take_take. f_equal. lia. }
        by rewrite (Ht (subscriptions w')), Htake, <- Ht.
    + apply lookup_ge_None in Hk.
      rewrite forEach_from_past_end by lia.
      by rewrite drop_ge, app_nil_r by lia.
Qed.

Lemma forEach_from_log_length n k w :
  ∃ notes,
    log (forEach_from n k w) = log w ++ notes
    ∧ Forall (λ c, ∃ fn, c = Notify fn (state w)) notes
    ∧ length notes ≤ n.
Proof.
  revert k w. induction n as [|n IH]; intros k w; simpl.
  - exists []. by rewrite app_nil_r.
  - destruct (subscriptions w !! k) as [fn|].
    + destruct (IH (S k) (call_listener fn w)) as (notes & Hlog & Hall & Hn).
      exists (Notify fn (state w) :: notes).
      rewrite Hlog, call_listener_log, <- app_assoc. split; [done|].
      rewrite call_listener_state in Hall.
      split; [constructor; eauto|simpl; lia].
    + destruct (IH (S k) w) as (notes & Hlog & Hall & Hn).
      exists notes. split; [done|]. split; [done|lia].
Qed.

Lemma run_cleanups_sublist (acts : list BusAction) (l : list Fn) :
  (∀ a, a ∈ acts → ∃ g, a = DoCleanup g) →
  foldl (λ l a, act a l) l acts `sublist_of` l.
Proof.
  revert l. induction acts as [|a acts IH]; intros l Hc; simpl; [done|].
  etrans; [apply IH; intros; apply Hc; by right|].
  destruct (Hc a) as [g ->]; [by left|]. apply sublist_delete.
Qed.

Lemma forEach_from_sublist n k w :
  only_cleans w →
  subscriptions (forEach_from n k w) `sublist_of` subscriptions w.
Proof.
  revert k w. induction n as [|n IH]; intros k w Hc; simpl; [done|].
  destruct (subscriptions w !! k) as [fn|]; [|by apply IH].
  etrans.
  - apply IH. unfold only_cleans. by rewrite call_listener_closures.
  - unfold call_listener. rewrite run_actions_subscriptions.
    apply run_cleanups_sublist. intros a. apply Hc.
Qed.

(** C7, amended.  After every committed transition the pass walks the live
    subscription array by index, synchronously, up to the length the array
    had when the pass began: it makes at most that many calls, each with the
    new state, and changes nothing of mode, context or timers.  When every
    removal made during the pass takes out an entry behind the one being
    notified, the listeners called are exactly the entries that the array
    holds, when the pass is over, below the starting length, in order.  With
    subscriptions only these are the subscribers registered at commit time,
    in registration order; with such removals only they are all the
    subscribers still registered. *)
Theorem C7_notify_in_registration_order
    (e : MachineEvent) (w : World) (next : TooltipState) :
  target e w = Some next →
  let pass := committed e w in
  let s' := state (send e w) in
  let remaining := subscriptions (send e w) in
  let started := length (subscriptions w) in
  (log (send e w) = log pass ++ notified pass
   ∧ Forall (λ c, ∃ fn, c = Notify fn s') (notified pass)
   ∧ length (notified pass) ≤ started
   ∧ core (send e w) = core pass)
  ∧ (removals_behind started 0 pass →
     notified pass = (λ fn, Notify fn s') <$> take started remaining)
  ∧ (only_subscribes w →
     log (send e w)
     = log pass ++ ((λ fn, Notify fn s') <$> subscriptions w)
     ∧ notified pass = (λ fn, Notify fn s') <$> subscriptions w
     ∧ subscriptions w `prefix_of` remaining)
  ∧ (only_cleans w → removals_behind started 0 pass →
     notified pass = (λ fn, Notify fn s') <$> remaining
     ∧ remaining `sublist_of` subscriptions w).
Proof.
  intros Ht pass s' remaining started.
  destruct (committed_fields e w next Ht) as [Hsubs Hclos].
  fold pass in Hsubs, Hclos.
  assert (Hsend : send e w = notify pass) by apply (send_mapped _ _ _ Ht).
  assert (Hs' : s' = state pass).
  { unfold s'. by rewrite Hsend, notify_state. }
  assert (Hnotify : notify pass = forEach_from started 0 pass).
  { unfold notify, started. by rewrite Hsubs. }
  destruct (forEach_from_log_length started 0 pass)
    as (notes & Hlog & Hall & Hlen).
  assert (Hnotes : notified pass = notes).
  { unfold notified. by rewrite Hnotify, Hlog, drop_app_length. }
  assert (Hbehind : removals_behind started 0 pass →
            notified pass = (λ fn, Notify fn s') <$> take started remaining).
  { intros Hb. destruct (forEach_from_behind _ _ _ Hb) as [Hl _].
    unfold notified, remaining.
    rewrite Hsend, Hnotify, Hl at 1. rewrite drop_app_length.
    by rewrite Hs', Hnotify, drop_0. }
  split; [|split; [done|split]].
  - rewrite Hnotes, Hs'. repeat split; try done.
    + by rewrite Hsend, Hnotify.
    + by rewrite Hsend, notify_core.
  - intros Hcl.
    assert (Hcl' : only_subscribes pass).
    { unfold only_subscribes. by rewrite Hclos. }
    pose proof (notify_appending _ Hcl') as Hlog'.
    rewrite Hsubs in Hlog'. rewrite Hs'.
    split; [by rewrite Hsend|]. split.
    + unfold notified. by rewrite Hlog', drop_app_length.
    + unfold remaining. rewrite Hsend, Hnotify. rewrite <- Hsubs at 1.
      clear -Hcl'. generalize started 0. intros n k.
      assert (H : ∀ n k w0, only_subscribes w0 →
                subscriptions pass `prefix_of` subscriptions w0 →
                subscriptions pass
                `prefix_of` subscriptions (forEach_from n k w0)).
      { clear n k. induction n as [|n IH]; intros k w0 Hcl0 Hpre; simpl;
          [done|].
        destruct (subscriptions w0 !! k) as [fn|]; [|by apply IH].
        apply IH; [|by apply call_listener_prefix].
        unfold only_subscribes. by rewrite call_listener_closures. }
      by apply H.
  - intros Hc Hb.
    assert (Hc' : only_cleans pass).
    { unfold only_cleans. by rewrite Hclos. }
    assert (Hsub : remaining `sublist_of` subscriptions w).
    { unfold remaining. rewrite Hsend, Hnotify, <- Hsubs.
      by apply forEach_from_sublist. }
    split; [|done]. rewrite (Hbehind Hb), take_ge; [done|].
    by apply sublist_length.
Qed.

Lemma C7_notify_in_registration_order_witness :
  let w :=
    {| state := state init; heap := heap init;
       subscriptions := [0; 1; 2];
       restTimeout := None; leavingVisibleTimer := None;
       window := window init;
       closures := λ fn, match fn with 0 => [DoCleanup 2] | _ => [] end;
       log := [] |} in
  let e := {| type := FOCUS; payload := Some "A" |} in
  target e w = Some VISIBLE
  ∧ removals_behind 3 0 (committed e w)
  ∧ only_cleans w
  ∧ subscriptions (send e w) = [0; 1]
  ∧ notified (committed e w)
    = [Notify 0 (state (send e w)); Notify 1 (state (send e w))].
Proof.
  intros w e.
  assert (Hb : removals_behind 3 0 (committed e w)).
  { vm_compute. split; [split; [|exact I]|split; exact I].
    repeat constructor. }
  assert (Hc : only_cleans w).
  { intros fn a Ha. exists 2. destruct fn as [|fn]; simpl in Ha.
    - by apply list_elem_of_singleton in Ha.
    - by apply not_elem_of_nil in Ha. }
  split; [reflexivity|]. split; [exact Hb|]. split; [exact Hc|].
  split; [reflexivity|].
  exact (proj1 (proj2 (proj2 (proj2
           (C7_notify_in_registration_order e w VISIBLE eq_refl)))
           Hc Hb)).
Defined.

(** ** Placement *)

(** C8 as stated fails for the flip: the code tests the left edge on
    [triggerRect.left - tooltipRect.width], not on the left edge the flipped
    popup would have.  With a viewport 100 wide, a trigger from 50 to 90 and
    a popup 80 wide, the popup passes the right edge (130), would fit when
    flipped (from 10 to 90), and is nevertheless left at 50. *)
Lemma C8_left_test_counterexample :
  ¬ (∀ (windowWidth windowHeight pageXOffset pageYOffset : Z)
       (triggerRect tooltipRect : DOMRect.t Z),
       overflows_right windowWidth triggerRect tooltipRect →
       ¬ flipped_overflows_left triggerRect tooltipRect →
       CSS.left (place windowWidth windowHeight pageXOffset pageYOffset
                   (Some triggerRect) (Some tooltipRect) None)
       = Some (px pretty (DOMRect.right triggerRect
                          - DOMRect.width tooltipRect + pageXOffset)%Z)).
Proof.
  intros H.
  specialize (H 100 800 0 0
    {| DOMRect.width := 40; DOMRect.height := 20; DOMRect.top := 100;
       DOMRect.right := 90; DOMRect.bottom := 120; DOMRect.left := 50 |}
    {| DOMRect.width := 80; DOMRect.height := 30; DOMRect.top := 0;
       DOMRect.right := 80; DOMRect.bottom := 30; DOMRect.left := 0 |})%Z.
  unfold overflows_right, flipped_overflows_left in H. simpl in H.
  assert (Hl : Some "50px" = Some "10px"); [|discriminate Hl].
  apply H; lia.
Qed.

(** C8, amended.  Whenever the popup fits below the trigger at its left edge
    (the right and the bottom tests do not fire) it is put there, whatever
    the other two tests say; when the right test fires and
    [triggerRect.left - tooltipRect.width] is not negative it is aligned with
    the trigger's right edge.  Both coordinates include the scroll offsets.
    This holds for every number type.  Over integer coordinates the
    conditions read as geometry: the left test is sufficient for the flipped
    popup to stay within the left edge, and when it fires the popup is left
    unflipped also where it would have fitted. *)
Theorem C8_position_without_flip_and_right_flip {num : Type}
    (add sub : num → num → num) (lt : num → num → bool) (lit : Z → num)
    (toString : num → string)
    (windowWidth windowHeight pageXOffset pageYOffset : num)
    (triggerRect tooltipRect : DOMRect.t num) (offset : option num) :
  let off := default (lit 8%Z) offset in
  let style := positionTooltip add sub lt lit toString
                 windowWidth windowHeight pageXOffset pageYOffset
                 (Some triggerRect) (Some tooltipRect) offset in
  let right_test :=
    lt windowWidth
      (add (DOMRect.left triggerRect) (DOMRect.width tooltipRect)) in
  let bottom_test :=
    lt windowHeight
      (add (add (DOMRect.bottom triggerRect) (DOMRect.height tooltipRect))
         off) in
  let left_test :=
    lt (sub (DOMRect.left triggerRect) (DOMRect.width tooltipRect))
      (lit 0%Z) in
  (right_test = false → bottom_test = false →
   style
   = {| CSS.left :=
          Some (px toString (add (DOMRect.left triggerRect) pageXOffset));
        CSS.top :=
          Some (px toString
                  (add (add (add (DOMRect.top triggerRect) off)
                          (DOMRect.height triggerRect))
                     pageYOffset));
        CSS.visibility := None |})
  ∧ (right_test = true → left_test = false →
     CSS.left style
     = Some (px toString
               (add (sub (DOMRect.right triggerRect)
                       (DOMRect.width tooltipRect))
                  pageXOffset)))
  ∧ (∀ (ww wh sx sy : Z) (t p : DOMRect.t Z) (o : option Z),
       let placed := place ww wh sx sy (Some t) (Some p) o in
       (¬ overflows_right ww t p →
        ¬ overflows_bottom wh t p (default 8%Z o) →
        CSS.left placed = Some (px pretty (DOMRect.left t + sx)%Z)
        ∧ CSS.top placed
          = Some (px pretty
                    (DOMRect.top t + default 8%Z o + DOMRect.height t
                     + sy)%Z))
       ∧ (overflows_right ww t p →
          (0 ≤ DOMRect.left t - DOMRect.width p)%Z →
          CSS.left placed
          = Some (px pretty (DOMRect.right t - DOMRect.width p + sx)%Z)
          ∧ ((DOMRect.left t ≤ DOMRect.right t)%Z →
             ¬ flipped_overflows_left t p))
       ∧ (overflows_right ww t p →
          (DOMRect.left t - DOMRect.width p < 0)%Z →
          CSS.left placed = Some (px pretty (DOMRect.left t + sx)%Z))).
Proof.
  intros off style right_test bottom_test left_test.
  unfold style, positionTooltip, collisions. fold off. simpl.
  fold right_test bottom_test left_test.
  split; [by intros -> ->|]. split; [by intros -> ->|].
  intros ww wh sx sy t p o.
  unfold overflows_right, overflows_bottom, flipped_overflows_left.
  split; [|split].
  - intros Hr Hb.
    rewrite (proj2 (Z.ltb_ge _ _)) by lia. simpl.
    by rewrite (proj2 (Z.ltb_ge wh _)) by lia.
  - intros Hr Hl.
    rewrite (proj2 (Z.ltb_lt ww _)) by lia.
    rewrite (proj2 (Z.ltb_ge _ 0)) by lia. simpl.
    split; [done|]. lia.
  - intros Hr Hl.
    rewrite (proj2 (Z.ltb_lt ww _)) by lia.
    by rewrite (proj2 (Z.ltb_lt _ 0)) by lia.
Qed.

Lemma C8_position_without_flip_and_right_flip_witness :
  let position := positionTooltip Z.add Z.sub Z.ltb (λ z, z) pretty
                    1000%Z 800%Z 0%Z 40%Z in
  let tooltip :=
    {| DOMRect.width := 80%Z; DOMRect.height := 30%Z; DOMRect.top := 0%Z;
       DOMRect.right := 80%Z; DOMRect.bottom := 30%Z; DOMRect.left := 0%Z |} in
  let middle :=
    {| DOMRect.width := 50%Z; DOMRect.height := 20%Z; DOMRect.top := 100%Z;
       DOMRect.right := 250%Z; DOMRect.bottom := 120%Z;
       DOMRect.left := 200%Z |} in
  let right_edge :=
    {| DOMRect.width := 50%Z; DOMRect.height := 20%Z; DOMRect.top := 100%Z;
       DOMRect.right := 1000%Z; DOMRect.bottom := 120%Z;
       DOMRect.left := 950%Z |} in
  position (Some middle) (Some tooltip) None
  = {| CSS.left := Some "200px"; CSS.top := Some "168px";
       CSS.visibility := None |}
  ∧ CSS.left (position (Some right_edge) (Some tooltip) None) = Some "920px".
Proof.
  intros position tooltip middle right_edge. split.
  - exact (proj1 (C8_position_without_flip_and_right_flip
                    Z.add Z.sub Z.ltb (λ z, z) pretty
                    1000%Z 800%Z 0%Z 40%Z middle tooltip None)
             eq_refl eq_refl).
  - exact (proj1 (proj2 (C8_position_without_flip_and_right_flip
                           Z.add Z.sub Z.ltb (λ z, z) pretty
                           1000%Z 800%Z 0%Z 40%Z right_edge tooltip None))
             eq_refl eq_refl).
Defined.

(** C9.  While the popup rectangle is absent, [getStyles] yields exactly
    [{ visibility: 'hidden' }] whatever the position function is, which it
    does not consult; and [positionTooltip] yields the empty style object as
    soon as one of the two rectangles is absent. *)
Theorem C9_unmeasured_popup_is_hidden {num : Type}
    (add sub : num → num → num) (lt : num → num → bool) (lit : Z → num)
    (toString : num → string)
    (windowWidth windowHeight pageXOffset pageYOffset : num)
    (position : Position) (rect : option (DOMRect.t num))
    (offset : option num) :
  getStyles position rect None = {[ "visibility" := CSSString "hidden" ]}
  ∧ positionTooltip add sub lt lit toString
      windowWidth windowHeight pageXOffset pageYOffset rect None offset
    = CSS.empty
  ∧ positionTooltip add sub lt lit toString
      windowWidth windowHeight pageXOffset pageYOffset None rect offset
    = CSS.empty.
Proof.
  repeat split; by destruct rect.
Qed.

(** * Further properties of the machine *)

(** ** Who owns the session *)

Lemma send_owned e w :
  wf w → carries_id e → owned w → owned (send e w).
Proof.
  intros Hwf Hcarry Hown. destruct (target e w) as [next|] eqn:Ht;
    [|by rewrite send_unmapped].
  unfold owned. rewrite (send_state _ _ _ Ht), (send_activeId _ _ _ Hwf Ht).
  simpl. intros Hnext.
  destruct (payload e) as [i|] eqn:Hp; simpl; [by eexists|].
  rewrite (after_leave_id e w Hwf).
  unfold carries_id in Hcarry. rewrite Hp in Hcarry.
  unfold owned in Hown. unfold target in Ht.
  destruct (value (state w)) eqn:Hv, (type e) eqn:Hty; simplify_eq/=;
    try done; try (by apply Hown);
    by (destruct Hcarry as [? ?]; [auto|done]).
Qed.

(** The callback of a pending timeout sends REST or TIME_COMPLETE. *)
Lemma due_timer_callback h w t :
  timers_ok w → due_timer h (window w) = Some t →
  t_callback t = REST_event ∨ t_callback t = TIMECOMPLETE_event.
Proof.
  intros Hok Hdue. destruct (due_timer_Some _ _ _ Hok Hdue) as (Hp & _ & _).
  unfold timers_ok, timer_ok in Hok. rewrite Hp in Hok.
  destruct Hok as [_ [(? & _)|(? & _)]]; auto.
Qed.

Lemma step_owned i w : wf w → timers_ok w → owned w → owned (step i w).
Proof.
  intros Hwf Hok Hown. destruct i; simpl; try done;
    unfold handleMouseEnter, handleMouseMove, handleMouseLeave,
      handleMouseDown, handleFocus, handleBlur, handleKeyDown, listener,
      handleGlobalMouseMove;
    repeat case_match; try done;
    try (apply send_owned; try done;
         intros [?|?]; simplify_eq/=; by eauto).
  destruct (due_timer h (window w)) as [t|] eqn:Hdue; [|by rewrite fire_None].
  rewrite (fire_Some _ _ _ Hdue). apply send_owned; try done.
  intros Hty.
  destruct (due_timer_callback _ _ _ Hok Hdue) as [Hcb|Hcb];
    rewrite Hcb in Hty; by destruct Hty.
Qed.

Lemma run_owned ins : owned (run ins init).
Proof.
  assert (H : wf (run ins init) ∧ timers_ok (run ins init)
              ∧ owned (run ins init)); [|by destruct H as (_ & _ & ?)].
  apply (run_invariant (λ w, wf w ∧ timers_ok w ∧ owned w)).
  - split; [apply init_wf|]. split; [apply init_timers_ok|].
    by intros [].
  - intros i w (Hwf & Hok & Hown).
    split; [by apply step_wf|]. split; [by apply step_timers_ok|].
    by apply step_owned.
Qed.

Lemma isTooltipVisible_spec i initial w :
  isTooltipVisible i initial w = true
  ↔ activeId w = Some i
    ∧ (value (state w) = VISIBLE
       ∨ (initial = false ∧ value (state w) = LEAVINGVISIBLE)).
Proof.
  unfold isTooltipVisible, is_active.
  rewrite andb_true_iff, bool_decide_eq_true.
  destruct initial; rewrite ?orb_true_iff, !bool_decide_eq_true;
    intuition congruence.
Qed.

(** X1.  In every reachable world outside IDLE some instance is the active
    one, and while the mode is VISIBLE or LEAVING_VISIBLE exactly one
    instance is visible: the active one. *)
Theorem X1_exactly_one_visible (ins : list Input) :
  let w := run ins init in
  (value (state w) ≠ IDLE → ∃ i, activeId w = Some i)
  ∧ (value (state w) = VISIBLE ∨ value (state w) = LEAVINGVISIBLE →
     ∃ i, activeId w = Some i
          ∧ ∀ j, isTooltipVisible j false w = true ↔ j = i).
Proof.
  intros w. pose proof (run_owned ins) as Hown. fold w in Hown.
  split; [exact Hown|]. intros Hv.
  destruct Hown as [i Hi]; [by destruct Hv as [-> | ->]|].
  exists i. split; [done|]. intros j.
  rewrite isTooltipVisible_spec, Hi. split.
  - by intros [[= ->] _].
  - intros ->. split; [done|]. destruct Hv; auto.
Qed.

Lemma X1_exactly_one_visible_witness :
  let w := run [FocusOn "A"; BlurOn "A"] init in
  value (state w) = LEAVINGVISIBLE
  ∧ ∃ i, activeId w = Some i
         ∧ ∀ j, isTooltipVisible j false w = true ↔ j = i.
Proof.
  intros w. split; [reflexivity|].
  exact (proj2 (X1_exactly_one_visible [FocusOn "A"; BlurOn "A"])
           (or_intror eq_refl)).
Defined.

(** ** Timers and modes *)

Lemma send_mapped_timers_exact e w next :
  timers_ok w → target e w = Some next → timers_exact (send e w).
Proof.
  intros Hok Ht.
  destruct (committed_window e w next Hok Ht) as (Hwin & Hrt & Hlt).
  unfold timers_exact.
  rewrite (send_state _ _ _ Ht), (send_mapped _ _ _ Ht), notify_window,
    notify_restTimeout, notify_leavingVisibleTimer, Hwin, Hrt, Hlt.
  destruct next; simpl; try done; eauto 10.
Qed.

Lemma step_timers_exact i w :
  timers_ok w → timers_exact w → timers_exact (step i w).
Proof.
  intros Hok Hex.
  assert (Hsend : ∀ e, timers_exact (send e w)).
  { intros e. destruct (target e w) as [next|] eqn:Ht.
    - by eapply send_mapped_timers_exact.
    - by rewrite send_unmapped. }
  destruct i; simpl; try done;
    unfold handleMouseEnter, handleMouseMove, handleMouseLeave,
      handleMouseDown, handleFocus, handleBlur, handleKeyDown, listener,
      handleGlobalMouseMove;
    repeat case_match; try done.
  - unfold timers_exact in *. simpl.
    destruct (value (state w)); try done;
      destruct Hex as (h & d' & ? & ? & ?); exists h, d';
      repeat split; try done; lia.
  - destruct (due_timer h (window w)) as [t|] eqn:Hdue;
      [|by rewrite fire_None].
    rewrite (fire_Some _ _ _ Hdue).
    pose proof (fired_world_pending _ _ _ Hok Hdue) as Hnil.
    destruct (due_timer_Some _ _ _ Hok Hdue) as (Hp & _ & _).
    assert (Hok' : timers_ok (fired_world h t w)).
    { unfold timers_ok. by rewrite Hnil. }
    unfold timers_ok, timer_ok in Hok. rewrite Hp in Hok.
    destruct Hok as [_ [(Hcb & Hv & _)|(Hcb & Hv & _)]]; rewrite Hcb.
    + apply (send_mapped_timers_exact _ _ VISIBLE Hok').
      unfold target. simpl. by rewrite Hv.
    + apply (send_mapped_timers_exact _ _ IDLE Hok').
      unfold target. simpl. by rewrite Hv.
Qed.

Lemma run_timers_exact ins : timers_exact (run ins init).
Proof.
  assert (H : timers_ok (run ins init) ∧ timers_exact (run ins init));
    [|by destruct H].
  apply (run_invariant (λ w, timers_ok w ∧ timers_exact w)).
  - by split.
  - intros i w [Hok Hex].
    split; [by apply step_timers_ok|by apply step_timers_exact].
Qed.

(** X2.  In every reachable world the pending timeouts are exactly those of
    the mode: FOCUSED has its one rest timeout pending, the one [restTimeout]
    names, LEAVING_VISIBLE its one leaving timeout, the one
    [leavingVisibleTimer] names, each due within its delay; IDLE, VISIBLE and
    DISMISSED have nothing pending, so that no timeout can run in them. *)
Theorem X2_timers_match_mode (ins : list Input) :
  let w := run ins init in
  timers_exact w
  ∧ (value (state w) = IDLE ∨ value (state w) = VISIBLE
     ∨ value (state w) = DISMISSED →
     ∀ h, fire h w = w).
Proof.
  intros w. pose proof (run_timers_exact ins) as Hex. fold w in Hex.
  split; [done|]. intros Hv h. apply fire_None.
  unfold due_timer. unfold timers_exact in Hex.
  destruct Hv as [Hv|[Hv|Hv]]; rewrite Hv in Hex; by rewrite Hex.
Qed.

Lemma X2_timers_match_mode_witness :
  let w := run [FocusOn "A"] init in
  value (state w) = VISIBLE ∧ pending (window w) = [] ∧ fire 0 w = w.
Proof.
  intros w.
  destruct (X2_timers_match_mode [FocusOn "A"]) as [Hex Hfire].
  split; [reflexivity|]. split; [exact Hex|].
  exact (Hfire (or_intror (or_introl eq_refl)) 0).
Defined.

(** ** Showing and hiding *)

Lemma send_window_mapped e w next :
  timers_ok w → target e w = Some next →
  window (send e w)
  = {| pending := scheduled next (window w);
       next_handle := length (scheduled next (window w))
                      + next_handle (window w);
       now := now (window w);
       fired := fired (window w) |}.
Proof.
  intros Hok Ht. rewrite (send_mapped _ _ _ Ht), notify_window.
  by destruct (committed_window e w next Hok Ht) as (-> & _).
Qed.

Lemma send_activeId_payload e w next i :
  wf w → target e w = Some next → payload e = Some i →
  activeId (send e w) = Some i.
Proof.
  intros Hwf Ht Hp. by rewrite (send_activeId _ _ _ Hwf Ht), Hp.
Qed.

Lemma send_activeId_no_payload e w next :
  wf w → target e w = Some next → payload e = None →
  activeId (send e w)
  = match value (state w) with
    | LEAVINGVISIBLE | DISMISSED => None
    | _ => activeId w
    end.
Proof.
  intros Hwf Ht Hp. rewrite (send_activeId _ _ _ Hwf Ht), Hp. simpl.
  by apply after_leave_id.
Qed.

Lemma nothing_visible_mode w :
  value (state w) ≠ VISIBLE → value (state w) ≠ LEAVINGVISIBLE →
  nothing_visible w.
Proof.
  intros H1 H2 j. apply not_true_is_false.
  rewrite isTooltipVisible_spec. intuition.
Qed.

Lemma visible_iff_active w i :
  value (state w) = VISIBLE ∨ value (state w) = LEAVINGVISIBLE →
  activeId w = Some i →
  ∀ j, isTooltipVisible j false w = true ↔ j = i.
Proof.
  intros Hv Hi j. rewrite isTooltipVisible_spec, Hi. split.
  - by intros [[= ->] _].
  - intros ->. split; [done|]. destruct Hv; auto.
Qed.

(** The only pending timeout, once due, runs when the window offers it. *)
Lemma fire_only_pending w t :
  pending (window w) = [t] → t_due t ≤ now (window w) →
  fire (t_handle t) w = send (t_callback t) (fired_world (t_handle t) t w).
Proof.
  intros Hp Hdue. apply fire_Some. unfold due_timer. rewrite Hp. simpl.
  rewrite decide_True by done. simpl. by rewrite decide_True.
Qed.

(** A world that waits [d] and then lets its only pending timeout [t],
    due by then, run. *)
Lemma elapse_then_fire w t d :
  pending (window w) = [t] → t_due t ≤ now (window w) + d →
  let w' := fired_world (t_handle t) t (step (Elapse d) w) in
  run [Elapse d; TimerFires (t_handle t)] w = send (t_callback t) w'
  ∧ state w' = state w ∧ heap w' = heap w ∧ pending (window w') = []
  ∧ now (window w') = now (window w) + d.
Proof.
  intros Hp Hdue w'. split.
  - change (run [Elapse d; TimerFires (t_handle t)] w)
      with (fire (t_handle t) (step (Elapse d) w)).
    by apply fire_only_pending.
  - repeat split; try done. unfold w'. simpl. rewrite Hp.
    rewrite filter_cons, filter_nil. by rewrite decide_False by tauto.
Qed.

(** X3.  Hovering shows after the rest delay.  In IDLE or VISIBLE, the
    pointer entering instance [i] leads to FOCUSED with nothing visible and
    the rest timeout scheduled; once at least [REST_TIMEOUT] has passed and
    that timeout runs, the mode is VISIBLE, instance [i] and no other is
    visible, and no timeout is left pending. *)
Theorem X3_hover_then_rest_shows (ins : list Input) (i : string) (d : nat) :
  let w := run ins init in
  value (state w) = IDLE ∨ value (state w) = VISIBLE →
  REST_TIMEOUT ≤ d →
  let w1 := step (MouseEnterOn i) w in
  let w2 := run [Elapse d; TimerFires (next_handle (window w))] w1 in
  value (state w1) = FOCUSED
  ∧ nothing_visible w1
  ∧ value (state w2) = VISIBLE
  ∧ (∀ j, isTooltipVisible j false w2 = true ↔ j = i)
  ∧ pending (window w2) = [].
Proof.
  intros w Hv Hd w1 w2.
  assert (Hwf : wf w) by apply run_wf, init_wf.
  assert (Hok : timers_ok w) by apply run_timers_ok, init_timers_ok.
  set (e := {| type := MOUSEENTER; payload := Some i |}).
  assert (Ht : target e w = Some FOCUSED).
  { unfold target. by destruct Hv as [-> | ->]. }
  assert (Hs1 : state w1 = {| value := FOCUSED;
                              context := fresh (dom (heap w)) |})
    by apply (send_state _ _ _ Ht).
  assert (Hid1 : activeId w1 = Some i)
    by apply (send_activeId_payload e w FOCUSED i Hwf Ht eq_refl).
  assert (Hwin1 : window w1 = _) by apply (send_window_mapped e w _ Hok Ht).
  assert (Hwf1 : wf w1) by by apply send_wf.
  split; [by rewrite Hs1|].
  split; [apply nothing_visible_mode; by rewrite Hs1|].
  set (t := {| t_handle := next_handle (window w);
               t_due := now (window w) + REST_TIMEOUT;
               t_callback := REST_event |}).
  destruct (elapse_then_fire w1 t d) as (Hrun & Hs' & Hh' & Hp' & _).
  { by rewrite Hwin1. }
  { rewrite Hwin1. simpl. lia. }
  change (t_handle t) with (next_handle (window w)) in Hrun.
  fold w2 in Hrun. simpl t_callback in Hrun.
  set (w' := fired_world _ _ _) in *.
  assert (Hwf' : wf w') by (unfold wf; by rewrite Hs', Hh').
  assert (Hok' : timers_ok w') by (unfold timers_ok; by rewrite Hp').
  assert (Ht' : target REST_event w' = Some VISIBLE).
  { unfold target. by rewrite Hs', Hs1. }
  assert (Hv2 : value (state w2) = VISIBLE).
  { by rewrite Hrun, (send_state _ _ _ Ht'). }
  split; [done|]. split.
  - apply visible_iff_active; [by left|].
    rewrite Hrun, (send_activeId_no_payload _ _ _ Hwf' Ht' eq_refl).
    rewrite Hs', Hs1. simpl. unfold activeId, read.
    rewrite Hs', Hh'. exact Hid1.
  - by rewrite Hrun, (send_window_mapped _ _ _ Hok' Ht').
Qed.

Lemma X3_hover_then_rest_shows_witness :
  let w1 := step (MouseEnterOn "A") init in
  let w2 := run [Elapse 100; TimerFires 0] w1 in
  value (state init) = IDLE
  ∧ value (state w1) = FOCUSED
  ∧ value (state w2) = VISIBLE
  ∧ pending (window w2) = [].
Proof.
  intros w1 w2.
  destruct (X3_hover_then_rest_shows [] "A" 100 (or_introl eq_refl)
              (le_n _)) as (H1 & _ & H2 & _ & H3).
  split; [reflexivity|]. split; [exact H1|]. split; [exact H2|exact H3].
Defined.

(** X4.  Leaving hides after the leave delay.  In VISIBLE, the pointer
    leaving (whatever the instance) leads to LEAVING_VISIBLE with the same
    instance still visible; once at least [LEAVE_TIMEOUT] has passed and the
    leaving timeout runs, the mode is IDLE, [context.id] is null, nothing is
    visible and no timeout is left pending. *)
Theorem X4_leave_then_delay_hides (ins : list Input) (i : string) (d : nat) :
  let w := run ins init in
  value (state w) = VISIBLE →
  LEAVE_TIMEOUT ≤ d →
  let w1 := step (MouseLeaveOn i) w in
  let w2 := run [Elapse d; TimerFires (next_handle (window w))] w1 in
  value (state w1) = LEAVINGVISIBLE
  ∧ (∀ j, isTooltipVisible j false w1 = isTooltipVisible j false w)
  ∧ value (state w2) = IDLE
  ∧ activeId w2 = None
  ∧ nothing_visible w2
  ∧ pending (window w2) = [].
Proof.
  intros w Hv Hd w1 w2.
  assert (Hwf : wf w) by apply run_wf, init_wf.
  assert (Hok : timers_ok w) by apply run_timers_ok, init_timers_ok.
  set (e := {| type := MOUSELEAVE; payload := None |}).
  assert (Ht : target e w = Some LEAVINGVISIBLE).
  { unfold target. by rewrite Hv. }
  assert (Hs1 : state w1 = {| value := LEAVINGVISIBLE;
                              context := fresh (dom (heap w)) |})
    by apply (send_state _ _ _ Ht).
  assert (Hid1 : activeId w1 = activeId w).
  { unfold w1. simpl. unfold handleMouseLeave. fold e.
    by rewrite (send_activeId_no_payload e w _ Hwf Ht eq_refl), Hv. }
  assert (Hwin1 : window w1 = _) by apply (send_window_mapped e w _ Hok Ht).
  assert (Hwf1 : wf w1) by by apply send_wf.
  split; [by rewrite Hs1|].
  split.
  { intros j. unfold isTooltipVisible, is_active.
    by rewrite Hid1, Hs1, Hv. }
  set (t := {| t_handle := next_handle (window w);
               t_due := now (window w) + LEAVE_TIMEOUT;
               t_callback := TIMECOMPLETE_event |}).
  destruct (elapse_then_fire w1 t d) as (Hrun & Hs' & Hh' & Hp' & _).
  { by rewrite Hwin1. }
  { rewrite Hwin1. simpl. lia. }
  change (t_handle t) with (next_handle (window w)) in Hrun.
  fold w2 in Hrun. simpl t_callback in Hrun.
  set (w' := fired_world _ _ _) in *.
  assert (Hwf' : wf w') by (unfold wf; by rewrite Hs', Hh').
  assert (Hok' : timers_ok w') by (unfold timers_ok; by rewrite Hp').
  assert (Ht' : target TIMECOMPLETE_event w' = Some IDLE).
  { unfold target. by rewrite Hs', Hs1. }
  assert (Hv2 : value (state w2) = IDLE).
  { by rewrite Hrun, (send_state _ _ _ Ht'). }
  split; [done|]. split.
  { rewrite Hrun, (send_activeId_no_payload _ _ _ Hwf' Ht' eq_refl).
    by rewrite Hs', Hs1. }
  split; [apply nothing_visible_mode; by rewrite Hv2|].
  by rewrite Hrun, (send_window_mapped _ _ _ Hok' Ht').
Qed.

Lemma X4_leave_then_delay_hides_witness :
  let w := run [FocusOn "A"] init in
  let w1 := step (MouseLeaveOn "A") w in
  let w2 := run [Elapse 500; TimerFires 0] w1 in
  value (state w) = VISIBLE
  ∧ value (state w1) = LEAVINGVISIBLE
  ∧ value (state w2) = IDLE
  ∧ activeId w2 = None.
Proof.
  intros w w1 w2.
  destruct (X4_leave_then_delay_hides [FocusOn "A"] "A" 500 eq_refl
              (le_n _)) as (H1 & _ & H2 & H3 & _).
  split; [reflexivity|]. split; [exact H1|]. split; [exact H2|exact H3].
Defined.

(** X5.  Keyboard focus shows at once from IDLE: the mode is VISIBLE, the
    focused instance and no other is visible, also in the sense of the
    initial-render check, and no timeout is scheduled.  In VISIBLE, by
    contrast, a focus event leads to FOCUSED: whatever was visible is hidden
    and the focused instance waits for the rest delay. *)
Theorem X5_focus_shows_at_once (ins : list Input) (i : string) :
  let w := run ins init in
  let w' := step (FocusOn i) w in
  (value (state w) = IDLE →
   value (state w') = VISIBLE
   ∧ (∀ j, isTooltipVisible j false w' = true ↔ j = i)
   ∧ isTooltipVisible i true w' = true
   ∧ pending (window w') = [])
  ∧ (value (state w) = VISIBLE →
     value (state w') = FOCUSED
     ∧ nothing_visible w'
     ∧ activeId w' = Some i
     ∧ pending (window w')
       = [{| t_handle := next_handle (window w);
             t_due := now (window w) + REST_TIMEOUT;
             t_callback := REST_event |}]).
Proof.
  intros w w'.
  assert (Hwf : wf w) by apply run_wf, init_wf.
  assert (Hok : timers_ok w) by apply run_timers_ok, init_timers_ok.
  set (e := {| type := FOCUS; payload := Some i |}).
  assert (Hw' : w' = send e w) by reflexivity.
  split; intros Hv.
  - assert (Ht : target e w = Some VISIBLE).
    { unfold target. by rewrite Hv. }
    assert (Hv' : value (state w') = VISIBLE)
      by by rewrite Hw', (send_state _ _ _ Ht).
    assert (Hid : activeId w' = Some i)
      by apply (send_activeId_payload e w _ i Hwf Ht eq_refl).
    split; [done|]. split; [apply visible_iff_active; auto|].
    split; [apply isTooltipVisible_spec; auto|].
    by rewrite Hw', (send_window_mapped _ _ _ Hok Ht).
  - assert (Ht : target e w = Some FOCUSED).
    { unfold target. by rewrite Hv. }
    assert (Hv' : value (state w') = FOCUSED)
      by by rewrite Hw', (send_state _ _ _ Ht).
    split; [done|].
    split; [apply nothing_visible_mode; by rewrite Hv'|].
    split; [apply (send_activeId_payload e w _ i Hwf Ht eq_refl)|].
    by rewrite Hw', (send_window_mapped _ _ _ Hok Ht).
Qed.

Lemma X5_focus_shows_at_once_witness :
  let w' := step (FocusOn "A") init in
  value (state init) = IDLE
  ∧ value (state w') = VISIBLE
  ∧ isTooltipVisible "A" true w' = true.
Proof.
  intros w'.
  destruct (proj1 (X5_focus_shows_at_once [] "A") eq_refl)
    as (H1 & _ & H2 & _).
  split; [reflexivity|]. split; [exact H1|exact H2].
Defined.

(** X6.  Hand-off.  With a tooltip visible, the pointer leaving its trigger
    and entering the trigger of instance [b] leaves instance [b], and no
    other, visible at once: the mode is VISIBLE again and no timeout is
    pending, neither the leaving one nor a rest one. *)
Theorem X6_handoff_is_immediate (ins : list Input) (a b : string) :
  let w := run ins init in
  value (state w) = VISIBLE →
  let w' := run [MouseLeaveOn a; MouseEnterOn b] w in
  value (state w') = VISIBLE
  ∧ (∀ j, isTooltipVisible j false w' = true ↔ j = b)
  ∧ pending (window w') = [].
Proof.
  intros w Hv w'.
  assert (Hwf : wf w) by apply run_wf, init_wf.
  assert (Hok : timers_ok w) by apply run_timers_ok, init_timers_ok.
  set (w1 := step (MouseLeaveOn a) w).
  assert (Hwf1 : wf w1) by by apply step_wf.
  assert (Hok1 : timers_ok w1) by by apply step_timers_ok.
  assert (Hv1 : value (state w1) = LEAVINGVISIBLE).
  { unfold w1. simpl. unfold handleMouseLeave.
    erewrite send_state; [done|]. unfold target. by rewrite Hv. }
  set (e := {| type := MOUSEENTER; payload := Some b |}).
  assert (Ht : target e w1 = Some VISIBLE).
  { unfold target. by rewrite Hv1. }
  change w' with (send e w1).
  assert (Hv' : value (state (send e w1)) = VISIBLE)
    by by rewrite (send_state _ _ _ Ht).
  split; [done|]. split.
  - apply visible_iff_active; [by left|].
    apply (send_activeId_payload e w1 _ b Hwf1 Ht eq_refl).
  - by rewrite (send_window_mapped _ _ _ Hok1 Ht).
Qed.

Lemma X6_handoff_is_immediate_witness :
  let w := run [MouseEnterOn "First"; Elapse 100; TimerFires 0] init in
  let w' := run [MouseLeaveOn "First"; MouseEnterOn "Second"] w in
  value (state w) = VISIBLE
  ∧ value (state w') = VISIBLE
  ∧ isTooltipVisible "Second" false w' = true
  ∧ isTooltipVisible "First" false w' = false.
Proof.
  intros w w'.
  destruct (X6_handoff_is_immediate
              [MouseEnterOn "First"; Elapse 100; TimerFires 0]
              "First" "Second" eq_refl) as (H1 & H2 & _).
  split; [reflexivity|]. split; [exact H1|].
  split; [by apply H2|]. apply not_true_is_false. intros H.
  apply H2 in H. discriminate H.
Defined.

(** ** Dismissal *)

Lemma due_timer_nil h win : pending win = [] → due_timer h win = None.
Proof. unfold due_timer. by intros ->. Qed.

(** X7.  A dismissed tooltip stays dismissed: in DISMISSED nothing is
    visible, and every input except a mouse leave, or a blur of the active
    instance, leaves the mode and [context.id] as they are; a mouse leave on
    any instance, or a blur of the active one, returns to IDLE with
    [context.id] null. *)
Theorem X7_dismissed_until_leave_or_blur (ins : list Input) (i : Input) :
  let w := run ins init in
  value (state w) = DISMISSED →
  nothing_visible w
  ∧ ((∀ j, i ≠ MouseLeaveOn j) →
     (∀ j, i = BlurOn j → activeId w ≠ Some j) →
     same_global_state (step i w) w)
  ∧ (∀ j, value (state (step (MouseLeaveOn j) w)) = IDLE
          ∧ activeId (step (MouseLeaveOn j) w) = None)
  ∧ (∀ j, activeId w = Some j →
          value (state (step (BlurOn j) w)) = IDLE
          ∧ activeId (step (BlurOn j) w) = None).
Proof.
  intros w Hv.
  assert (Hwf : wf w) by apply run_wf, init_wf.
  pose proof (run_timers_exact ins) as Hex. fold w in Hex.
  unfold timers_exact in Hex. rewrite Hv in Hex.
  assert (Hun : ∀ e, type e ≠ MOUSELEAVE → type e ≠ BLUR → send e w = w).
  { intros e H1 H2. apply send_unmapped. unfold target. rewrite Hv.
    by destruct (type e). }
  assert (Hidle : ∀ e, (type e = MOUSELEAVE ∨ type e = BLUR) →
            payload e = None →
            value (state (send e w)) = IDLE ∧ activeId (send e w) = None).
  { intros e Hty Hp.
    assert (Ht : target e w = Some IDLE).
    { unfold target. rewrite Hv. by destruct Hty as [-> | ->]. }
    rewrite (send_state _ _ _ Ht).
    by rewrite (send_activeId_no_payload _ _ _ Hwf Ht Hp), Hv. }
  split; [apply nothing_visible_mode; by rewrite Hv|].
  split; [|split].
  - intros Hnl Hnb.
    destruct i; simpl;
      unfold handleMouseEnter, handleMouseMove, handleMouseLeave,
        handleMouseDown, handleFocus, handleBlur, handleKeyDown, listener,
        handleGlobalMouseMove;
      repeat case_match; try done; rewrite ?Hun by done; try done.
    + by destruct (Hnl i).
    + exfalso. apply (Hnb i eq_refl).
      match goal with
      | H : is_active _ _ = true |- _ =>
          unfold is_active in H; by apply bool_decide_eq_true in H
      end.
    + by rewrite fire_None by by apply due_timer_nil.
  - intros j. by apply Hidle; [left|].
  - intros j Hj. simpl. unfold handleBlur, is_active.
    rewrite bool_decide_eq_true_2 by done. by apply Hidle; [right|].
Qed.

Lemma X7_dismissed_until_leave_or_blur_witness :
  let w := run [FocusOn "A"; DocumentKeyDown "Escape"] init in
  value (state w) = DISMISSED
  ∧ same_global_state (step (FocusOn "B") w) w
  ∧ value (state (step (MouseLeaveOn "A") w)) = IDLE.
Proof.
  intros w.
  destruct (X7_dismissed_until_leave_or_blur
              [FocusOn "A"; DocumentKeyDown "Escape"] (FocusOn "B") eq_refl)
    as (_ & Hsame & Hleave & _).
  split; [reflexivity|]. split.
  - apply Hsame; intros j; discriminate.
  - apply Hleave.
Defined.

(** The outcome of a dismissal of [w]: DISMISSED, with [context.id] kept,
    nothing visible and no timeout pending. *)
Lemma send_dismisses e w :
  wf w → timers_ok w → payload e = None →
  target e w = Some DISMISSED →
  value (state (send e w)) = DISMISSED
  ∧ activeId (send e w) = activeId w
  ∧ nothing_visible (send e w)
  ∧ pending (window (send e w)) = [].
Proof.
  intros Hwf Hok Hp Ht.
  assert (Hv : value (state (send e w)) = DISMISSED)
    by by rewrite (send_state _ _ _ Ht).
  split; [done|]. split.
  - rewrite (send_activeId_no_payload _ _ _ Hwf Ht Hp).
    unfold target in Ht. by destruct (value (state w)), (type e).
  - split; [apply nothing_visible_mode; by rewrite Hv|].
    by rewrite (send_window_mapped _ _ _ Hok Ht).
Qed.

(** X8.  A mouse down dismisses only the session of its own instance: on an
    instance that is not the active one, or in a mode other than FOCUSED and
    VISIBLE, it changes nothing; on the active instance in FOCUSED or VISIBLE
    it leads to DISMISSED, keeps [context.id], leaves nothing visible and
    cancels the rest timeout. *)
Theorem X8_mouse_down_dismisses_own_session (ins : list Input) (i : string) :
  let w := run ins init in
  let w' := handleMouseDown i w in
  (activeId w ≠ Some i → w' = w)
  ∧ (value (state w) ≠ FOCUSED → value (state w) ≠ VISIBLE → w' = w)
  ∧ (activeId w = Some i →
     value (state w) = FOCUSED ∨ value (state w) = VISIBLE →
     value (state w') = DISMISSED
     ∧ activeId w' = Some i
     ∧ nothing_visible w'
     ∧ pending (window w') = []).
Proof.
  intros w w'.
  assert (Hwf : wf w) by apply run_wf, init_wf.
  assert (Hok : timers_ok w) by apply run_timers_ok, init_timers_ok.
  unfold w', handleMouseDown, is_active. split; [|split].
  - intros Hne. by rewrite bool_decide_eq_false_2.
  - intros H1 H2. case_bool_decide; [|done].
    apply send_unmapped. unfold target.
    by destruct (value (state w)).
  - intros Hi Hv. rewrite bool_decide_eq_true_2 by done.
    rewrite <- Hi. apply send_dismisses; try done.
    unfold target. by destruct Hv as [-> | ->].
Qed.

Lemma X8_mouse_down_dismisses_own_session_witness :
  let w := run [MouseEnterOn "A"] init in
  activeId w = Some "A"
  ∧ value (state w) = FOCUSED
  ∧ handleMouseDown "B" w = w
  ∧ value (state (handleMouseDown "A" w)) = DISMISSED
  ∧ pending (window (handleMouseDown "A" w)) = [].
Proof.
  intros w.
  destruct (X8_mouse_down_dismisses_own_session [MouseEnterOn "A"] "B")
    as (HB & _).
  destruct (X8_mouse_down_dismisses_own_session [MouseEnterOn "A"] "A")
    as (_ & _ & HA).
  destruct (HA eq_refl (or_introl eq_refl)) as (H1 & _ & _ & H2).
  split; [reflexivity|]. split; [reflexivity|].
  split; [apply HB; by vm_compute|]. split; [exact H1|exact H2].
Defined.

(** X9.  The keyboard dismisses only a visible tooltip.  Outside VISIBLE
    neither a key on a trigger nor a key on the document changes anything.
    In VISIBLE, Enter or Space on any trigger, and Escape or Esc on the
    document, lead to DISMISSED with [context.id] kept, nothing visible and
    nothing pending; every other key changes nothing. *)
Theorem X9_keyboard_dismisses_only_when_visible
    (ins : list Input) (i key : string) :
  let w := run ins init in
  let dismissed w' :=
    value (state w') = DISMISSED ∧ activeId w' = activeId w
    ∧ nothing_visible w' ∧ pending (window w') = [] in
  (value (state w) ≠ VISIBLE →
   handleKeyDown i key w = w ∧ listener key w = w)
  ∧ (key ≠ "Enter" → key ≠ " " → handleKeyDown i key w = w)
  ∧ (key ≠ "Escape" → key ≠ "Esc" → listener key w = w)
  ∧ (value (state w) = VISIBLE →
     (key = "Enter" ∨ key = " " → dismissed (handleKeyDown i key w))
     ∧ (key = "Escape" ∨ key = "Esc" → dismissed (listener key w))).
Proof.
  intros w dismissed.
  assert (Hwf : wf w) by apply run_wf, init_wf.
  assert (Hok : timers_ok w) by apply run_timers_ok, init_timers_ok.
  set (e := {| type := SELECTWITHKEYBOARD; payload := None |}).
  assert (Hun : value (state w) ≠ VISIBLE → send e w = w).
  { intros Hv. apply send_unmapped. unfold target.
    by destruct (value (state w)). }
  assert (Hdis : value (state w) = VISIBLE → dismissed (send e w)).
  { intros Hv. apply send_dismisses; try done. unfold target.
    by rewrite Hv. }
  unfold handleKeyDown, listener. fold e.
  split; [|split; [|split]].
  - intros Hv. rewrite (bool_decide_eq_false_2 _ Hv), andb_false_r.
    split; [|done]. case_match; [by apply Hun|done].
  - intros H1 H2.
    by rewrite (bool_decide_eq_false_2 _ H1), (bool_decide_eq_false_2 _ H2).
  - intros H1 H2.
    by rewrite (bool_decide_eq_false_2 _ H1), (bool_decide_eq_false_2 _ H2).
  - intros Hv. split.
    + intros [-> | ->]; simpl; by apply Hdis.
    + intros Hkey. rewrite (bool_decide_eq_true_2 _ Hv), andb_true_r.
      destruct Hkey as [-> | ->]; simpl; by apply Hdis.
Qed.

Lemma X9_keyboard_dismisses_only_when_visible_witness :
  let w := run [FocusOn "A"] init in
  value (state w) = VISIBLE
  ∧ value (state (listener "Escape" w)) = DISMISSED
  ∧ value (state (handleKeyDown "A" "Enter" w)) = DISMISSED
  ∧ handleKeyDown "A" "Tab" w = w.
Proof.
  intros w.
  destruct (X9_keyboard_dismisses_only_when_visible [FocusOn "A"] "A"
              "Escape") as (_ & _ & _ & Hesc).
  destruct (X9_keyboard_dismisses_only_when_visible [FocusOn "A"] "A"
              "Enter") as (_ & _ & _ & Hent).
  destruct (X9_keyboard_dismisses_only_when_visible [FocusOn "A"] "A"
              "Tab") as (_ & Htab & _).
  split; [reflexivity|].
  split; [exact (proj1 (proj2 (Hesc eq_refl) (or_introl eq_refl)))|].
  split; [exact (proj1 (proj1 (Hent eq_refl) (or_introl eq_refl)))|].
  apply Htab; discriminate.
Defined.

(** X10.  The machine trusts the identifier of the latest event: when a
    mapped event carries an [id], that instance is the active one afterwards,
    whatever the mode and whoever was active before, and no other instance
    is visible. *)
Theorem X10_event_id_becomes_active
    (e : MachineEvent) (w : World) (next : TooltipState) (i : string) :
  wf w →
  target e w = Some next →
  payload e = Some i →
  value (state (send e w)) = next
  ∧ activeId (send e w) = Some i
  ∧ ∀ j, isTooltipVisible j false (send e w) = true → j = i.
Proof.
  intros Hwf Ht Hp.
  assert (Hid : activeId (send e w) = Some i)
    by by apply (send_activeId_payload e w next).
  split; [by rewrite (send_state _ _ _ Ht)|]. split; [done|].
  intros j [Hj _]%isTooltipVisible_spec. congruence.
Qed.

Lemma X10_event_id_becomes_active_witness :
  let w := run [MouseEnterOn "A"] init in
  let e := {| type := MOUSEMOVE; payload := Some "B" |} in
  wf w
  ∧ activeId w = Some "A"
  ∧ value (state (send e w)) = FOCUSED
  ∧ activeId (send e w) = Some "B".
Proof.
  intros w e.
  assert (Hwf : wf w) by (by eexists).
  destruct (X10_event_id_becomes_active e w FOCUSED "B" Hwf eq_refl eq_refl)
    as (H1 & H2 & _).
  split; [exact Hwf|]. split; [reflexivity|]. split; [exact H1|exact H2].
Defined.

(** * Further properties of the subscription list *)

Lemma indexOf_absent (l : list Fn) (fn : Fn) :
  fn ∉ l → indexOf l fn = (-1)%Z.
Proof.
  intros Hnot. unfold indexOf.
  destruct (list_find _ l) as [[k g]|] eqn:Hfind; [|done].
  apply list_find_Some in Hfind as (Hk & -> & _).
  destruct Hnot. by eapply list_elem_of_lookup_2.
Qed.

Lemma indexOf_first (before after : list Fn) (fn : Fn) :
  fn ∉ before →
  indexOf (before ++ fn :: after) fn = Z.of_nat (length before).
Proof.
  intros Hnot. unfold indexOf.
  assert (Hfind : list_find (λ g, g = fn) (before ++ fn :: after)
                  = Some (length before, fn)).
  { apply list_find_Some. split; [by apply list_lookup_middle|].
    split; [done|]. intros j y Hj Hlt ->.
    rewrite lookup_app_l in Hj by done.
    destruct Hnot. by eapply list_elem_of_lookup_2. }
  by rewrite Hfind.
Qed.

Lemma splice1_at (before after : list Fn) (x : Fn) :
  splice1 (before ++ x :: after) (Z.of_nat (length before))
  = before ++ after.
Proof.
  unfold splice1. rewrite length_app. simpl.
  destruct (Z.ltb_spec (Z.of_nat (length before)) 0) as [?|_]; [lia|].
  rewrite Z.min_l by lia. rewrite Nat2Z.id. apply delete_middle.
Qed.

Lemma splice1_last (l : list Fn) (x : Fn) :
  splice1 (l ++ [x]) (-1) = l.
Proof.
  unfold splice1. rewrite length_app. simpl.
  replace (Z.to_nat (Z.max (Z.of_nat (length l + 1) + -1) 0))
    with (length l) by lia.
  by rewrite delete_middle, app_nil_r.
Qed.

(** X11.  The clean-up function of a subscription removes the first
    registration of its listener and nothing else: the other subscribers keep
    their order, and mode, context and timers are untouched.  Subscribing a
    listener that is not yet registered and cleaning up restores the module
    state exactly. *)
Theorem X11_cleanup_removes_first_registration
    (w : World) (fn : Fn) (before after : list Fn) :
  fn ∉ before →
  (subscriptions w = before ++ fn :: after →
   subscriptions (cleanup fn w) = before ++ after
   ∧ core (cleanup fn w) = core w
   ∧ log (cleanup fn w) = log w)
  ∧ (subscriptions w = before → cleanup fn (subscribe fn w) = w).
Proof.
  intros Hnot. split.
  - intros Hsubs. unfold cleanup. simpl.
    by rewrite Hsubs, indexOf_first, splice1_at.
  - intros Hsubs. unfold cleanup, subscribe. simpl.
    rewrite Hsubs, (indexOf_first before []), splice1_at, app_nil_r by done.
    destruct w; simpl in *. by subst.
Qed.

Lemma X11_cleanup_removes_first_registration_witness :
  let w := run [Mount 1; Mount 2; Mount 3] init in
  (2 ∉ [1])
  ∧ subscriptions (cleanup 2 w) = [1; 3]
  ∧ cleanup 4 (subscribe 4 w) = w.
Proof.
  intros w.
  assert (H2 : 2 ∉ [1]) by (by intros ?%list_elem_of_singleton).
  assert (H4 : 4 ∉ [1; 2; 3]).
  { intros H. repeat (apply elem_of_cons in H as [H|H]; [discriminate|]).
    by apply not_elem_of_nil in H. }
  split; [exact H2|]. split.
  - exact (proj1 (proj1 (X11_cleanup_removes_first_registration w 2 [1] [3]
                           H2) eq_refl)).
  - exact (proj2 (X11_cleanup_removes_first_registration w 4 [1; 2; 3] []
                    H4) eq_refl).
Defined.

(** X12.  A clean-up function whose listener is no longer registered does
    not leave the list alone: [indexOf] is [-1] and [splice(-1, 1)] removes
    the last subscriber, whoever it is.  So calling the clean-up of [fn]
    twice removes [fn] and then the subscriber registered last.  Only on an
    empty list does a stale clean-up do nothing. *)
Theorem X12_stale_cleanup_removes_last_subscriber
    (w : World) (fn g : Fn) (l : list Fn) :
  fn ∉ l → fn ≠ g →
  (subscriptions w = l ++ [g] → subscriptions (cleanup fn w) = l)
  ∧ (subscriptions w = [] → cleanup fn w = w)
  ∧ (∀ before after,
       l = before ++ after →
       subscriptions w = before ++ fn :: after ++ [g] →
       subscriptions (cleanup fn (cleanup fn w)) = before ++ after).
Proof.
  intros Hnot Hne. split; [|split].
  - intros Hsubs. unfold cleanup. simpl. rewrite Hsubs.
    rewrite indexOf_absent; [apply splice1_last|].
    intros [?|?%list_elem_of_singleton]%elem_of_app; done.
  - intros Hsubs. unfold cleanup. rewrite Hsubs. simpl.
    destruct w; simpl in *. by subst.
  - intros before after -> Hsubs.
    apply not_elem_of_app in Hnot as [Hb Ha].
    assert (H1 : subscriptions (cleanup fn w) = before ++ after ++ [g]).
    { unfold cleanup. simpl. by rewrite Hsubs, indexOf_first, splice1_at. }
    change (subscriptions (cleanup fn (cleanup fn w)))
      with (splice1 (subscriptions (cleanup fn w))
              (indexOf (subscriptions (cleanup fn w)) fn)).
    rewrite H1, app_assoc.
    rewrite indexOf_absent; [apply splice1_last|].
    intros [[?|?]%elem_of_app|?%list_elem_of_singleton]%elem_of_app; done.
Qed.

Lemma X12_stale_cleanup_removes_last_subscriber_witness :
  let w := run [Mount 1; Mount 2; Mount 3; Unmount 1] init in
  subscriptions w = [2; 3]
  ∧ subscriptions (cleanup 1 w) = [2].
Proof.
  intros w.
  assert (H1 : 1 ∉ [2]) by (by intros ?%list_elem_of_singleton).
  assert (Hne : 1 ≠ 3) by discriminate.
  split; [reflexivity|].
  exact (proj1 (X12_stale_cleanup_removes_last_subscriber w 1 3 [2] H1 Hne)
           eq_refl).
Defined.

(** * Further properties of placement and rendering *)

(** X13.  Where the popup lands, over integer pixel coordinates, for a
    trigger rectangle whose edges agree with its size and a non-negative
    offset.  The popup never overlaps the trigger vertically: it starts
    [offset] below it or ends [offset] above it.  It keeps the trigger's left
    edge or ends at the trigger's right edge, and does not pass the left edge
    of the viewport when the trigger does not.  It may pass the top edge, by
    at most the offset, because the top test leaves the offset out.  When it
    fits below the trigger at its left edge it is put there, within the right
    and bottom edges. *)
Theorem X13_popup_geometry
    (ww wh sx sy : Z) (t p : DOMRect.t Z) (o : option Z) :
  let off := default 8%Z o in
  (0 ≤ off)%Z →
  (0 ≤ DOMRect.height t)%Z →
  (DOMRect.right t = DOMRect.left t + DOMRect.width t)%Z →
  (0 ≤ DOMRect.width t)%Z →
  (DOMRect.bottom t = DOMRect.top t + DOMRect.height t)%Z →
  ∃ x y : Z,
    place ww wh sx sy (Some t) (Some p) o
    = {| CSS.left := Some (px pretty (x + sx)%Z);
         CSS.top := Some (px pretty (y + sy)%Z);
         CSS.visibility := None |}
    ∧ (y = DOMRect.bottom t + off ∨ y + DOMRect.height p = DOMRect.top t - off)%Z
    ∧ (x = DOMRect.left t ∨ x + DOMRect.width p = DOMRect.right t)%Z
    ∧ ((0 ≤ DOMRect.left t)%Z → (0 ≤ x)%Z)
    ∧ ((0 ≤ DOMRect.top t)%Z → (- off ≤ y)%Z)
    ∧ (¬ overflows_right ww t p →
       x = DOMRect.left t ∧ (x + DOMRect.width p ≤ ww)%Z)
    ∧ (¬ overflows_bottom wh t p off →
       y = (DOMRect.bottom t + off)%Z ∧ (y + DOMRect.height p ≤ wh)%Z).
Proof.
  intros off Hoff Hh Hr Hw Hb.
  unfold place, positionTooltip, collisions, overflows_right,
    overflows_bottom. fold off. simpl.
  destruct (Z.ltb_spec ww (DOMRect.left t + DOMRect.width p)) as [Hcr|Hcr];
    destruct (Z.ltb_spec (DOMRect.left t - DOMRect.width p) 0) as [Hcl|Hcl];
    destruct (Z.ltb_spec wh (DOMRect.bottom t + DOMRect.height p + off))
      as [Hcb|Hcb];
    destruct (Z.ltb_spec (DOMRect.top t - DOMRect.height p) 0) as [Hct|Hct];
    simpl;
    match goal with
    | |- ∃ x y, {| CSS.left := Some (px pretty (?a + sx)%Z);
                   CSS.top := Some (px pretty (?b + sy)%Z);
                   CSS.visibility := None |} = _ ∧ _ =>
        exists a, b
    end;
    (split; [done|]); repeat split; intros; lia.
Qed.

Lemma X13_popup_geometry_witness :
  let t := {| DOMRect.width := 40%Z; DOMRect.height := 20%Z;
              DOMRect.top := 35%Z; DOMRect.right := 90%Z;
              DOMRect.bottom := 55%Z; DOMRect.left := 50%Z |} in
  let p := {| DOMRect.width := 80%Z; DOMRect.height := 30%Z;
              DOMRect.top := 0%Z; DOMRect.right := 80%Z;
              DOMRect.bottom := 30%Z; DOMRect.left := 0%Z |} in
  place 100 60 0 0 (Some t) (Some p) None
  = {| CSS.left := Some "50px"; CSS.top := Some "-3px";
       CSS.visibility := None |}
  ∧ ∃ x y : Z,
      place 100 60 0 0 (Some t) (Some p) None
      = {| CSS.left := Some (px pretty (x + 0)%Z);
           CSS.top := Some (px pretty (y + 0)%Z);
           CSS.visibility := None |}
      ∧ (-8 ≤ y)%Z ∧ (0 ≤ x)%Z.
Proof.
  intros t p. split; [reflexivity|].
  destruct (X13_popup_geometry 100 60 0 0 t p None)
    as (x & y & Hplace & _ & _ & Hx & Hy & _);
    [simpl; lia | simpl; lia | reflexivity | simpl; lia | reflexivity |].
  exists x, y. split; [exact Hplace|].
  split; [apply Hy; simpl; lia | apply Hx; simpl; lia].
Defined.

Lemma CSS_props_lookup (c : CSS.t) (k : string) :
  CSS_props c !! k
  = if decide (k = "left") then CSSString <$> CSS.left c
    else if decide (k = "top") then CSSString <$> CSS.top c
    else if decide (k = "visibility") then CSSString <$> CSS.visibility c
    else None.
Proof.
  unfold CSS_props. destruct c as [[l|] [t|] [v|]]; simpl;
    rewrite !lookup_union, ?lookup_singleton, ?lookup_empty;
    repeat case_decide; simplify_eq; done.
Qed.

(** X14.  Precedence in the style of the popup.  Whatever [getStyles]
    returns wins over the caller's [style], which wins over the built-in
    properties; this holds for every position function, whatever properties
    its style object has.  So while the popup is not measured its
    [visibility] is "hidden"; with the default position and both rectangles
    measured [left] and [top] are the computed coordinates; and with the
    default position every other property is the caller's when the caller
    gives it and the built-in one otherwise. *)
Theorem X14_style_precedence {num : Type}
    (add sub : num → num → num) (lt : num → num → bool) (lit : Z → num)
    (toString : num → string)
    (windowWidth windowHeight pageXOffset pageYOffset : num)
    (position : Position) (style : option CSSProperties)
    (triggerRect tooltipRect : option (DOMRect.t num)) :
  let default_pos :=
    default_position add sub lt lit toString
      windowWidth windowHeight pageXOffset pageYOffset in
  let placed t p :=
    positionTooltip add sub lt lit toString
      windowWidth windowHeight pageXOffset pageYOffset (Some t) (Some p)
      None in
  let below k :=
    match default ∅ style !! k with
    | Some v => Some v
    | None => base_style !! k
    end in
  (∀ k, TooltipContent_style position style triggerRect tooltipRect !! k
        = match getStyles position triggerRect tooltipRect !! k with
          | Some v => Some v
          | None => below k
          end)
  ∧ (TooltipContent_style position style triggerRect None !! "visibility"
     = Some (CSSString "hidden"))
  ∧ (∀ t p,
       TooltipContent_style default_pos style (Some t) (Some p) !! "left"
       = CSSString <$> CSS.left (placed t p)
       ∧ TooltipContent_style default_pos style (Some t) (Some p) !! "top"
         = CSSString <$> CSS.top (placed t p)
       ∧ is_Some (CSS.left (placed t p))
       ∧ is_Some (CSS.top (placed t p)))
  ∧ (∀ k, k ≠ "left" → k ≠ "top" → k ≠ "visibility" →
       TooltipContent_style default_pos style triggerRect tooltipRect !! k
       = below k).
Proof.
  intros default_pos placed below.
  assert (Hall : ∀ (pos : Position) (tr tt : option (DOMRect.t num)) k,
            TooltipContent_style pos style tr tt !! k
            = match getStyles pos tr tt !! k with
              | Some v => Some v
              | None => below k
              end).
  { intros pos tr tt k. unfold TooltipContent_style, spread, below.
    rewrite !lookup_union.
    destruct (getStyles pos tr tt !! k), (default ∅ style !! k),
      (base_style !! k); done. }
  split; [apply Hall|]. split; [|split].
  - rewrite Hall. unfold getStyles. by rewrite lookup_singleton_eq.
  - intros t p. rewrite !Hall.
    unfold default_pos, default_position, getStyles, placed.
    rewrite !CSS_props_lookup. simpl.
    split; [done|]. split; [done|]. split; by eexists.
  - intros k H1 H2 H3. rewrite Hall.
    unfold default_pos, default_position, getStyles.
    destruct tooltipRect.
    + rewrite CSS_props_lookup. by repeat case_decide.
    + by rewrite lookup_singleton_ne.
Qed.

Lemma X14_style_precedence_witness :
  let style : CSSProperties :=
    {[ "left" := CSSString "0px"; "zIndex" := CSSNumber 5 ]} in
  let trigger :=
    {| DOMRect.width := 50%Z; DOMRect.height := 20%Z;
       DOMRect.top := 100%Z; DOMRect.right := 250%Z;
       DOMRect.bottom := 120%Z; DOMRect.left := 200%Z |} in
  let popup :=
    {| DOMRect.width := 80%Z; DOMRect.height := 30%Z;
       DOMRect.top := 0%Z; DOMRect.right := 80%Z;
       DOMRect.bottom := 30%Z; DOMRect.left := 0%Z |} in
  let on_top : Position := λ _ _, {[ "zIndex" := CSSNumber 9 ]} in
  let final :=
    TooltipContent_style
      (default_position Z.add Z.sub Z.ltb (λ z, z) pretty
         1000%Z 800%Z 0%Z 40%Z)
      (Some style) (Some trigger) (Some popup) in
  final !! "left" = Some (CSSString "200px")
  ∧ final !! "zIndex" = Some (CSSNumber 5)
  ∧ final !! "position" = Some (CSSString "absolute")
  ∧ TooltipContent_style on_top (Some style) (Some trigger) (Some popup)
    !! "zIndex" = Some (CSSNumber 9).
Proof.
  intros style trigger popup on_top final.
  destruct (X14_style_precedence Z.add Z.sub Z.ltb (λ z, z) pretty
              1000%Z 800%Z 0%Z 40%Z
              (default_position Z.add Z.sub Z.ltb (λ z, z) pretty
                 1000%Z 800%Z 0%Z 40%Z)
              (Some style) (Some trigger) (Some popup))
    as (_ & _ & Hplaced & Hother).
  destruct (X14_style_precedence Z.add Z.sub Z.ltb (λ z, z) pretty
              1000%Z 800%Z 0%Z 40%Z on_top
              (Some style) (Some trigger) (Some popup))
    as (Hall & _).
  split; [exact (proj1 (Hplaced _ _))|].
  split.
  - exact (Hother "zIndex" ltac:(discriminate) ltac:(discriminate)
             ltac:(discriminate)).
  - split.
    + exact (Hother "position" ltac:(discriminate) ltac:(discriminate)
               ltac:(discriminate)).
    + exact (Hall "zIndex").
Defined.

(** X15.  The trigger and the popup agree on the identifier.  When the
    instance is visible the popup renders exactly one element with the role
    "tooltip", with or without an [aria-label]; its text is the [aria-label]
    when there is one and the label otherwise, and the [aria-describedby] of
    the trigger is the [id] of that element.  When the instance is not
    visible there is neither a popup nor an [aria-describedby], and the
    [data-state] of the trigger says which of the two cases holds. *)
Theorem X15_described_by_the_tooltip_element
    (makeId : string → string → string) (isVisible : bool)
    (ariaLabel : option string) (id label : string) :
  match TooltipPopup makeId isVisible ariaLabel id label with
  | Some elements =>
      data_state isVisible = "tooltip-visible"
      ∧ ∃ el, filter (λ el, el_role el = Some "tooltip") elements = [el]
              ∧ aria_describedby makeId isVisible id = el_id el
              ∧ el_id el = Some (makeId "tooltip" id)
              ∧ el_text el = default label ariaLabel
  | None =>
      data_state isVisible = "tooltip-hidden"
      ∧ aria_describedby makeId isVisible id = None
  end.
Proof.
  destruct isVisible; simpl; [|done]. split; [done|].
  destruct ariaLabel as [text|]; simpl; by eexists.
Qed.

(** * A listener that unsubscribes itself *)

Lemma foldl_record_log (l : list Call) (w : World) :
  log (foldl (λ w c, record c w) w l) = log w ++ l.
Proof.
  revert w. induction l as [|c l IH]; intros w; simpl.
  - by rewrite app_nil_r.
  - rewrite IH. simpl. by rewrite <- app_assoc.
Qed.

(** A stretch of the pass over listeners that do nothing to the list only
    records their deliveries. *)
Lemma forEach_from_quiet n k w :
  (∀ fn, fn ∈ take n (drop k (subscriptions w)) → closures w fn = []) →
  forEach_from n k w
  = foldl (λ w c, record c w) w
      ((λ fn, Notify fn (state w)) <$> take n (drop k (subscriptions w))).
Proof.
  revert k w. induction n as [|n IH]; intros k w Hq; simpl; [done|].
  destruct (subscriptions w !! k) as [fn|] eqn:Hk.
  - rewrite (drop_S _ _ _ Hk) in *. simpl in *.
    assert (Hfn : call_listener fn w = record (Notify fn (state w)) w).
    { unfold call_listener. by rewrite (Hq fn) by by left. }
    rewrite Hfn, IH; [done|]. intros g Hg. apply Hq. by right.
  - apply lookup_ge_None in Hk.
    rewrite IH.
    + by rewrite (drop_ge _ k), (drop_ge _ (S k)), !take_nil by lia.
    + rewrite drop_ge, take_nil by lia. by intros fn ?%not_elem_of_nil.
Qed.

(** X16.  When a listener unsubscribes itself while it is notified, exactly
    the subscriber registered right after it misses that notification: all
    the others are called once, in registration order, and the list that
    remains is the original one without the listener that left. *)
Theorem X16_self_unsubscribe_skips_next
    (w : World) (f g : Fn) (before after : list Fn) :
  subscriptions w = before ++ f :: g :: after →
  f ∉ before ++ g :: after →
  closures w f = [DoCleanup f] →
  (∀ fn, fn ∈ before ++ g :: after → closures w fn = []) →
  notified w = (λ fn, Notify fn (state w)) <$> (before ++ f :: after)
  ∧ subscriptions (notify w) = before ++ g :: after.
Proof.
  intros Hsubs Hf Hcf Hquiet.
  apply not_elem_of_app in Hf as [Hfb Hfa].
  set (w1 := foldl (λ w c, record c w) w
               ((λ fn, Notify fn (state w)) <$> before)).
  assert (Hfields : ∀ l w0,
            subscriptions (foldl (λ w c, record c w) w0 l) = subscriptions w0
            ∧ closures (foldl (λ w c, record c w) w0 l) = closures w0
            ∧ state (foldl (λ w c, record c w) w0 l) = state w0).
  { induction l as [|c l IH]; intros w0; simpl; [done|].
    exact (IH (record c w0)). }
  destruct (Hfields ((λ fn, Notify fn (state w)) <$> before) w)
    as (Hs1 & Hc1 & Hst1). fold w1 in Hs1, Hc1, Hst1.
  assert (Hsplit : ∀ n m j w0,
            forEach_from (n + m) j w0
            = forEach_from m (j + n) (forEach_from n j w0)).
  { induction n as [|n IH]; intros m j w0; simpl.
    - by rewrite Nat.add_0_r.
    - rewrite IH. by replace (S j + n) with (j + S n) by lia. }
  assert (Hphase1 : forEach_from (length before) 0 w = w1).
  { rewrite forEach_from_quiet; rewrite Hsubs, drop_0, take_app_length;
      [done|].
    intros fn Hfn. apply Hquiet, elem_of_app. by left. }
  set (w2 := cleanup f (record (Notify f (state w)) w1)).
  assert (Hphase2 : forEach_from 1 (length before) w1 = w2).
  { simpl. rewrite Hs1, Hsubs.
    rewrite list_lookup_middle by done.
    unfold call_listener. by rewrite Hc1, Hcf, Hst1. }
  assert (Hs2 : subscriptions w2 = before ++ g :: after).
  { unfold w2, cleanup. simpl. rewrite Hs1, Hsubs.
    by rewrite indexOf_first, splice1_at. }
  assert (Hdrop : drop (S (length before)) (before ++ g :: after) = after).
  { change (g :: after) with ([g] ++ after). rewrite app_assoc.
    rewrite drop_app_length'; [done|]. rewrite length_app. simpl. lia. }
  assert (Hphase3 :
            forEach_from (S (length after)) (S (length before)) w2
            = foldl (λ w c, record c w) w2
                ((λ fn, Notify fn (state w)) <$> after)).
  { rewrite forEach_from_quiet.
    - rewrite Hs2, Hdrop. rewrite take_ge by lia.
      change (state w2) with (state w1). by rewrite Hst1.
    - rewrite Hs2, Hdrop, take_ge by lia. intros fn Hfn.
      change (closures w2 fn) with (closures w1 fn). rewrite Hc1.
      apply Hquiet. apply elem_of_app. right. by right. }
  assert (Hnotify : notify w
                    = foldl (λ w c, record c w) w2
                        ((λ fn, Notify fn (state w)) <$> after)).
  { unfold notify. rewrite Hsubs, length_app. simpl length.
    replace (length before + S (S (length after)))
      with (length before + (1 + S (length after))) by lia.
    rewrite Hsplit, Hphase1, Nat.add_0_l, Hsplit, Hphase2.
    replace (length before + 1) with (S (length before)) by lia.
    exact Hphase3. }
  split.
  - unfold notified. rewrite Hnotify, foldl_record_log.
    change (log w2) with (log w1 ++ [Notify f (state w)]).
    unfold w1. rewrite foldl_record_log, <- !app_assoc, drop_app_length.
    by rewrite fmap_app.
  - rewrite Hnotify.
    by destruct (Hfields ((λ fn, Notify fn (state w)) <$> after) w2)
      as (-> & _).
Qed.

Lemma X16_self_unsubscribe_skips_next_witness :
  let w :=
    {| state := state init; heap := heap init;
       subscriptions := [5; 6; 7; 8];
       restTimeout := None; leavingVisibleTimer := None;
       window := window init;
       closures := λ fn, if decide (fn = 6) then [DoCleanup 6] else [];
       log := [] |} in
  notified w
  = [Notify 5 (state w); Notify 6 (state w); Notify 8 (state w)]
  ∧ subscriptions (notify w) = [5; 7; 8].
Proof.
  intros w.
  apply (X16_self_unsubscribe_skips_next w 6 7 [5] [8]); try reflexivity.
  - intros H. repeat (apply elem_of_cons in H as [H|H]; [discriminate|]).
    by apply not_elem_of_nil in H.
  - intros fn H. simpl. case_decide; [|done]. subst fn.
    repeat (apply elem_of_cons in H as [H|H]; [discriminate|]).
    by apply not_elem_of_nil in H.
Defined.

(** * Coming back to IDLE *)

Lemma run_app ins1 ins2 w : run (ins1 ++ ins2) w = run ins2 (run ins1 w).
Proof. apply foldl_app. Qed.

(** After a mouse leave the mode is IDLE or LEAVING_VISIBLE. *)
Lemma mouse_leave_mode i w :
  value (state (handleMouseLeave i w)) = IDLE
  ∨ value (state (handleMouseLeave i w)) = LEAVINGVISIBLE.
Proof.
  unfold handleMouseLeave.
  destruct (target {| type := MOUSELEAVE; payload := None |} w)
    as [next|] eqn:Ht.
  - rewrite (send_state _ _ _ Ht). unfold target in Ht.
    destruct (value (state w)); simplify_eq/=; auto.
  - rewrite send_unmapped by done. unfold target in Ht.
    destruct (value (state w)); simplify_eq/=; auto.
Qed.

(** X17.  The machine cannot get stuck showing a tooltip: from every
    reachable world, a mouse leave followed by the leave delay and the run
    of the timeout then pending, if any, ends in IDLE with nothing visible
    and nothing pending. *)
Theorem X17_leave_and_wait_returns_to_idle (ins : list Input) (i : string) :
  ∃ h,
    let w' :=
      run (ins ++ [MouseLeaveOn i; Elapse LEAVE_TIMEOUT; TimerFires h])
        init in
    value (state w') = IDLE
    ∧ nothing_visible w'
    ∧ pending (window w') = [].
Proof.
  set (w1 := run (ins ++ [MouseLeaveOn i]) init).
  assert (Hwf1 : wf w1) by apply run_wf, init_wf.
  pose proof (run_timers_exact (ins ++ [MouseLeaveOn i])) as Hex.
  fold w1 in Hex. unfold timers_exact in Hex.
  assert (Hrun : ∀ h,
            run (ins ++ [MouseLeaveOn i; Elapse LEAVE_TIMEOUT; TimerFires h])
              init
            = run [Elapse LEAVE_TIMEOUT; TimerFires h] w1).
  { intros h. unfold w1. rewrite <- run_app, <- app_assoc. done. }
  assert (Hmode : value (state w1) = IDLE ∨ value (state w1) = LEAVINGVISIBLE).
  { unfold w1. rewrite run_app. apply mouse_leave_mode. }
  destruct Hmode as [Hv|Hv]; rewrite Hv in Hex.
  - exists 0. simpl. rewrite Hrun.
    change (run [Elapse LEAVE_TIMEOUT; TimerFires 0] w1)
      with (fire 0 (step (Elapse LEAVE_TIMEOUT) w1)).
    rewrite fire_None by by apply due_timer_nil.
    split; [done|]. split; [|done].
    apply nothing_visible_mode; simpl; by rewrite Hv.
  - destruct Hex as (h & d & Hp & _ & Hd).
    exists h. simpl. rewrite Hrun.
    destruct (elapse_then_fire w1 _ LEAVE_TIMEOUT Hp)
      as (Hfire & Hs' & Hh' & Hp' & _); [simpl; lia|].
    simpl t_handle in *. simpl t_callback in *. rewrite Hfire.
    set (w' := fired_world _ _ _) in *.
    assert (Hok' : timers_ok w') by (unfold timers_ok; by rewrite Hp').
    assert (Ht' : target TIMECOMPLETE_event w' = Some IDLE).
    { unfold target. by rewrite Hs', Hv. }
    assert (Hv2 : value (state (send TIMECOMPLETE_event w')) = IDLE)
      by by rewrite (send_state _ _ _ Ht').
    split; [done|]. split; [apply nothing_visible_mode; by rewrite Hv2|].
    by rewrite (send_window_mapped _ _ _ Hok' Ht').
Qed.
